(** * Gap filling (ml4xcube/gapfilling/gap_filling.py): a shallow embedding

    The [Gapfiller] class of [gap_filling.py] is embedded as pure functions
    over an explicit [Gapfiller] record.  NumPy arrays are lists of rows,
    a float is either [NaN] or a rational number, exceptions are the
    [Raise] outcome of a small result type, the draws of [random] are an
    input of the functions that draw, and scikit-learn, whose results the
    code only passes along, is a parameter of the functions that call it. *)

From Stdlib Require Import Ascii String DecimalString Bool Arith ZArith QArith
  Qabs Qround List Sorted Lia.
Import ListNotations.
Close Scope Q_scope.
Open Scope nat_scope.


(** ** Outcomes of a call *)

Inductive exn :=
| KeyError | IndexError | TypeError | ValueError | AttributeError
| UnboundLocalError | OverflowError | LibraryError.

(** [Starved]: a loop asked [random] for a further draw after the draws
    handed to the function were used up, so the loop is still running. *)
Inductive result (A : Type) :=
| Ok (a : A)
| Raise (e : exn)
| Starved.

Arguments Ok {A} a.
Arguments Raise {A} e.
Arguments Starved {A}.

Definition bind {A B} (r : result A) (k : A -> result B) : result B :=
  match r with
  | Ok a => k a
  | Raise e => Raise e
  | Starved => Starved
  end.

Notation "x <- c ;; k" := (bind c (fun x => k))
  (at level 61, c at next level, right associativity).
Notation "' pat <- c ;; k" := (bind c (fun x => match x with pat => k end))
  (at level 61, pat pattern, c at next level, right associativity).

Definition returns {A} (r : result A) : bool :=
  match r with Ok _ => true | _ => false end.

Definition of_option {A} (e : exn) (o : option A) : result A :=
  match o with Some a => Ok a | None => Raise e end.

Fixpoint mapM {A B} (f : A -> result B) (l : list A) : result (list B) :=
  match l with
  | [] => Ok []
  | a :: l' => b <- f a ;; bs <- mapM f l' ;; Ok (b :: bs)
  end.

(** ** Floats and NumPy arrays *)

Inductive value :=
| NaN
| Num (q : Q).

Definition isnan (v : value) : bool :=
  match v with NaN => true | Num _ => false end.

(** [a == b] on floats: a NaN equals nothing, itself included. *)
Definition val_eqb (a b : value) : bool :=
  match a, b with
  | Num x, Num y => Qeq_bool x y
  | _, _ => false
  end.

Definition val_neqb (a b : value) : bool := negb (val_eqb a b).

Definition rtol : Q := (1 # 100000)%Q.
Definition atol : Q := (1 # 100000000)%Q.

(** [np.isclose(a, b)] with its default tolerances and [equal_nan=False]:
    [|a - b| <= atol + rtol * |b|], false as soon as one side is NaN. *)
Definition isclose (a b : value) : bool :=
  match a, b with
  | Num x, Num y => Qle_bool (Qabs (x - y)) (atol + rtol * Qabs y)
  | _, _ => false
  end.

(** Truth value of a float: zero is false, everything else (NaN too) true. *)
Definition truthy (v : value) : bool :=
  match v with NaN => true | Num q => negb (Qeq_bool q 0) end.

Definition vsub (a b : value) : value :=
  match a, b with Num x, Num y => Num (x - y) | _, _ => NaN end.

Definition vabs (a : value) : value :=
  match a with Num x => Num (Qabs x) | NaN => NaN end.

Definition minus100 : value := Num (-100 # 1)%Q.

Definition matrix := list (list value).
Definition coord := (nat * nat)%type.

Definition coord_eqb (a b : coord) : bool :=
  (fst a =? fst b) && (snd a =? snd b).

(** [m.size] *)
Definition size (m : matrix) : nat := length (concat m).

(** [m.shape] *)
Definition shape (m : matrix) : nat * nat :=
  (length m, length (hd [] m)).

(** [m[i, j]]; [None] stands for the IndexError of an index out of range. *)
Definition getitem (m : matrix) (c : coord) : option value :=
  match nth_error m (fst c) with
  | Some row => nth_error row (snd c)
  | None => None
  end.

Fixpoint set_nth {A} (l : list A) (k : nat) (a : A) : list A :=
  match l, k with
  | [], _ => []
  | _ :: l', 0 => a :: l'
  | x :: l', S k' => x :: set_nth l' k' a
  end.

(** [m[i, j] = v] *)
Definition setitem (m : matrix) (c : coord) (v : value) : option matrix :=
  match nth_error m (fst c) with
  | Some row =>
      if snd c <? length row
      then Some (set_nth m (fst c) (set_nth row (snd c) v))
      else None
  | None => None
  end.

(** [(p(m)).sum()] for a boolean mask [p(m)] *)
Definition count_where (p : value -> bool) (m : matrix) : nat :=
  length (filter p (concat m)).

Fixpoint where_row (p : value -> bool) (i j : nat) (row : list value)
  : list coord :=
  match row with
  | [] => []
  | v :: row' =>
      if p v then (i, j) :: where_row p i (S j) row'
      else where_row p i (S j) row'
  end.

Fixpoint argwhere_from (p : value -> bool) (i : nat) (m : matrix)
  : list coord :=
  match m with
  | [] => []
  | row :: m' => where_row p i 0 row ++ argwhere_from p (S i) m'
  end.

(** [np.argwhere(p(m))]: the indices where the mask holds, in row-major
    order. *)
Definition argwhere (p : value -> bool) (m : matrix) : list coord :=
  argwhere_from p 0 m.

(** [np.where(cond(a), x, b)] for a scalar [x], element by element. *)
Definition np_where (cond : value -> bool) (a : matrix) (x : value)
  (b : matrix) : matrix :=
  map (fun rr => map (fun vw => if cond (fst vw) then x else snd vw)
                     (combine (fst rr) (snd rr)))
      (combine a b).

(** Python slices [l[:-1]] and [l[-1:]] *)
Definition but_last {A} (l : list A) : list A := removelast l.

Definition last_slice {A} (l : list A) : list A :=
  match rev l with
  | [] => []
  | a :: _ => [a]
  end.

(** ** Python values that change type at run time *)

Inductive pyval :=
| PNone
| PFloat (v : value)
| PArray (vs : list value)
| PStr (s : string).

Definition not_available : pyval := PStr "not available".

(** ** xarray datasets *)

Inductive key :=
| KName (s : string)
| KTuple (i j : nat).

Definition key_eqb (a b : key) : bool :=
  match a, b with
  | KName s, KName t => String.eqb s t
  | KTuple i j, KTuple k l => (i =? k) && (j =? l)
  | _, _ => false
  end.

(** A dataset maps the names of its variables to arrays. *)
Definition Dataset := list (key * matrix).

(** [ds[k]] for a hashable key: the variable of that name, or KeyError. *)
Definition dataset_getitem (ds : Dataset) (k : key) : result matrix :=
  match find (fun kv => key_eqb (fst kv) k) ds with
  | Some kv => Ok (snd kv)
  | None => Raise KeyError
  end.

(** ** The object *)

(** The dtype of the class array [lccs_class], as far as [np.where] depends
    on it: an unsigned integer type of so many bits, or a type that stores
    the marker -100 as it is (the signed integer and the float types). *)
Inductive dtype :=
| Unsigned (bits : N)
| Holding.

(** The scalar [x] stored in an array of dtype [d]: [np.where] gives its
    result the dtype of the array and casts the Python integer to it
    without a range check, so an unsigned type keeps it modulo [2 ^ bits]
    (-100 becomes 156 in a [uint8] array).  NaN comes from a Python float,
    which turns the result into a float array and is kept. *)
Definition astype (d : dtype) (x : value) : value :=
  match d, x with
  | Unsigned bits, Num q =>
      if Qeq_bool q (inject_Z (Qfloor q))
      then Num (inject_Z (Qfloor q mod 2 ^ Z.of_N bits))
      else x
  | _, _ => x
  end.

Record Gapfiller := {
  learning_function : string;
  hyperparameters : string;
  predictor : string;
  actual_matrix : Dataset;
  data_with_gaps : list (string * matrix);
  gap_value : value;
  temp_gap_array : matrix;
  temp_known_pixels : Z;
  training_data : list matrix;
  (** the array [lccs_class] of extra_matrix_lcc.nc, which
      [get_extra_matrix_points] opens on every call, and its dtype *)
  extra_matrix : matrix;
  extra_dtype : dtype
}.

Definition with_gap_array (g : Gapfiller) (a : matrix) (k : Z) : Gapfiller :=
  {| learning_function := learning_function g;
     hyperparameters := hyperparameters g;
     predictor := predictor g;
     actual_matrix := actual_matrix g;
     data_with_gaps := data_with_gaps g;
     gap_value := gap_value g;
     temp_gap_array := a;
     temp_known_pixels := k;
     training_data := training_data g;
     extra_matrix := extra_matrix g;
     extra_dtype := extra_dtype g |}.

(** The mask of the pixels that carry the gap marker: [np.isnan(a)] for
    real gaps, [a == gap_value] for artificial ones. *)
Definition gap_mask (g : Gapfiller) : value -> bool :=
  if isnan (gap_value g) then isnan
  else fun v => val_eqb v (gap_value g).

(** [~np.isnan(a)], respectively [a != gap_value] *)
Definition non_gap_mask (g : Gapfiller) : value -> bool :=
  if isnan (gap_value g) then fun v => negb (isnan v)
  else fun v => val_neqb v (gap_value g).

(** ** float(s) and int(x)

    [float] of a string: the text without the white space around it and
    without the underscores that stand between two digits must be a decimal
    numeral, or one of [inf], [infinity] and [nan] under a sign, in either
    case of the letters.  The strings are the ASCII names that
    [get_arrays] reads. *)

Definition is_space (c : ascii) : bool :=
  let n := nat_of_ascii c in ((9 <=? n) && (n <=? 13)) || (n =? 32).

Definition is_digit (c : ascii) : bool :=
  let n := nat_of_ascii c in (48 <=? n) && (n <=? 57).

Definition lower (c : ascii) : ascii :=
  let n := nat_of_ascii c in
  if (65 <=? n) && (n <=? 90) then ascii_of_nat (n + 32) else c.

Fixpoint lstrip (s : list ascii) : list ascii :=
  match s with
  | c :: s' => if is_space c then lstrip s' else s
  | [] => []
  end.

Definition strip (s : list ascii) : list ascii :=
  rev (lstrip (rev (lstrip s))).

(** An underscore is allowed after a digit and before a digit only. *)
Fixpoint drop_underscores (prev : ascii) (s : list ascii)
  : option (list ascii) :=
  match s with
  | [] => if Ascii.eqb prev "_"%char then None else Some []
  | c :: s' =>
      if Ascii.eqb c "_"%char then
        if is_digit prev then drop_underscores c s' else None
      else if Ascii.eqb prev "_"%char && negb (is_digit c) then None
      else option_map (cons c) (drop_underscores c s')
  end.

(** A sign, if there is one: [true] for a minus. *)
Definition sign (s : list ascii) : bool * list ascii :=
  match s with
  | c :: s' =>
      if Ascii.eqb c "-"%char then (true, s')
      else if Ascii.eqb c "+"%char then (false, s')
      else (false, s)
  | [] => (false, [])
  end.

(** The digits at the head of [s], read on from [acc]; how many they are;
    the rest of [s]. *)
Fixpoint digits (acc : Z) (n : nat) (s : list ascii)
  : Z * nat * list ascii :=
  match s with
  | c :: s' =>
      if is_digit c
      then digits (10 * acc + Z.of_nat (nat_of_ascii c - 48)) (S n) s'
      else (acc, n, s)
  | [] => (acc, n, [])
  end.

(** A decimal numeral: digits with at most one point among them and at
    least one digit, then possibly an exponent with at least one digit. *)
Definition decimal (s : list ascii) : option Q :=
  let '(negative, s) := sign s in
  let '(_, n1, s) as whole := digits 0 0 s in
  let '(mantissa, n2, s) :=
    match s with
    | c :: s' =>
        if Ascii.eqb c "."%char then digits (fst (fst whole)) 0 s' else whole
    | [] => whole
    end in
  let number (e : Z) : option Q :=
    let q := (inject_Z mantissa * Qpower 10 (e - Z.of_nat n2))%Q in
    Some (if negative then Qopp q else q) in
  if n1 + n2 =? 0 then None
  else
    match s with
    | [] => number 0%Z
    | c :: s' =>
        if Ascii.eqb (lower c) "e"%char then
          let '(minus, s') := sign s' in
          let '(e, n3, rest) := digits 0 0 s' in
          match n3, rest with
          | S _, [] => number (if minus then Z.opp e else e)
          | _, _ => None
          end
        else None
    end.

(** What [float] returns, as far as the code depends on it. *)
Inductive pyfloat :=
| FNan
| FInf
| FNum (q : Q).

Definition inf_or_nan (s : list ascii) : option pyfloat :=
  let w := string_of_list_ascii (map lower (snd (sign s))) in
  if (w =? "inf")%string || (w =? "infinity")%string then Some FInf
  else if (w =? "nan")%string then Some FNan
  else None.

(** From this magnitude on a number is rounded to infinity; below it the
    rounding of a float is left aside, as everywhere. *)
Definition overflow_bound : Q := inject_Z (2 ^ 1024 - 2 ^ 970).

Definition float (s : string) : result pyfloat :=
  match drop_underscores Ascii.zero (strip (list_ascii_of_string s)) with
  | None => Raise ValueError
  | Some text =>
      match decimal text with
      | Some q =>
          Ok (if Qle_bool overflow_bound (Qabs q) then FInf else FNum q)
      | None => of_option ValueError (inf_or_nan text)
      end
  end.

(** [int(x * n)]: NaN and the infinities have no integer. *)
Definition int_of_product (x : pyfloat) (n : nat) : result unit :=
  match x with
  | FNan => Raise ValueError
  | FInf => if n =? 0 then Raise ValueError else Raise OverflowError
  | FNum q =>
      if Qle_bool overflow_bound (Qabs q * inject_Z (Z.of_nat n))
      then Raise OverflowError
      else Ok tt
  end.

(** ** process_gap_array *)

Definition process_gap_array (g : Gapfiller) (gap_size : string)
  : result (Gapfiller * list coord) :=
  (* gap_size_pixel, a number that is only printed *)
  x <- float gap_size ;;
  image <- of_option IndexError (nth_error (training_data g) 0) ;;
  _ <- int_of_product x (size image) ;;
  match find (fun kv => String.eqb (fst kv) gap_size) (data_with_gaps g) with
  | None => Raise KeyError
  | Some kv =>
      let a := snd kv in
      let known :=
        if isnan (gap_value g)
        then (Z.of_nat (size a) - Z.of_nat (count_where isnan a))%Z
        else (Z.of_nat (size a)
              - Z.of_nat (count_where (fun v => val_eqb v (gap_value g)) a)
              - Z.of_nat (count_where isnan a))%Z in
      let g' := with_gap_array g a known in
      Ok (g', argwhere (gap_mask g') a)
  end.

(** ** get_random_points *)

Inductive selection :=
| Coords (cs : list coord)
| Signal (s : string).

Definition not_enough : string :=
  "Not enough known pixels - proceed with interpolation".

(** One pass of the [while] loop per draw [(random_i, random_j)]. *)
Fixpoint sampling_loop (a : matrix) (iter_value : nat) (draws : list coord)
  (coords : list coord) (number_iter : nat) : result (list coord) :=
  if number_iter <=? iter_value then
    match draws with
    | [] => Starved
    | coordinates :: draws' =>
        match getitem a coordinates with
        | None => Raise IndexError
        | Some v =>
            if isclose v minus100 || isclose v NaN then
              sampling_loop a iter_value draws' coords number_iter
            else if existsb (coord_eqb coordinates) coords then
              sampling_loop a iter_value draws' coords number_iter
            else
              sampling_loop a iter_value draws' (coords ++ [coordinates])
                            (S number_iter)
        end
    end
  else Ok coords.

Definition get_random_points (g : Gapfiller) (draws : list coord)
  : result selection :=
  if (100 <=? temp_known_pixels g)%Z then
    let iter_value := 100 in
    cs <- sampling_loop (temp_gap_array g) iter_value draws [] 0 ;;
    Ok (Coords cs)
  else if (50 <=? temp_known_pixels g)%Z then
    Ok (Coords (argwhere (non_gap_mask g) (temp_gap_array g)))
  else Ok (Signal not_enough).

(** ** get_extra_matrix_points *)

(** An entry of [distances]: a distance, or the [np.inf] written over an
    entry that was already selected. *)
Inductive distance :=
| Fin (d : Z)
| Inf.

Definition dist_ltb (a b : distance) : bool :=
  match a, b with
  | Fin x, Fin y => (x <? y)%Z
  | Fin _, Inf => true
  | Inf, _ => false
  end.

(** Squared Euclidean distance between two pixels. *)
Definition sqdist (p q : coord) : Z :=
  ((Z.of_nat (fst p) - Z.of_nat (fst q)) ^ 2
   + (Z.of_nat (snd p) - Z.of_nat (snd q)) ^ 2)%Z.

(** [scipy.spatial.distance.cdist(target_pixel, coords)[0]].  SciPy returns
    the Euclidean distances, the square roots of the numbers kept here; the
    square root is increasing, so the squares compare, tie and sort exactly
    as the distances do. *)
Definition cdist (target_pixel : coord) (coords : list coord)
  : list distance :=
  map (fun c => Fin (sqdist target_pixel c)) coords.

Fixpoint argmin_from (ds : list distance) (k best : nat) (bestd : distance)
  : nat :=
  match ds with
  | [] => best
  | d :: ds' =>
      if dist_ltb d bestd then argmin_from ds' (S k) k d
      else argmin_from ds' (S k) best bestd
  end.

(** [np.argmin]: the index of the first occurrence of the minimum. *)
Definition argmin (ds : list distance) : nat :=
  match ds with
  | [] => 0
  | d :: ds' => argmin_from ds' 1 0 d
  end.

(** The indices [index_min_dist] taken by [n] passes of the selection
    loop. *)
Fixpoint select_indices (n : nat) (distances : list distance) : list nat :=
  match n with
  | 0 => []
  | S n' =>
      let index_min_dist := argmin distances in
      index_min_dist :: select_indices n' (set_nth distances index_min_dist Inf)
  end.

(** The [for iter in range(...)] loop of [get_extra_matrix_points]. *)
Fixpoint select_loop (n : nat) (coords : list coord)
  (distances : list distance) (selected_coords : list coord) : list coord :=
  match n with
  | 0 => selected_coords
  | S n' =>
      let index_min_dist := argmin distances in
      let new_coord := nth index_min_dist coords (0, 0) in
      select_loop n' coords (set_nth distances index_min_dist Inf)
                  (selected_coords ++ [new_coord])
  end.

(** [np.argwhere(new_extra_matrix == extra_code)] *)
Definition same_class_coords (g : Gapfiller) (extra_code : value)
  : list coord :=
  let new_extra_matrix :=
    if isnan (gap_value g)
    then np_where isnan (temp_gap_array g) (gap_value g) (extra_matrix g)
    else np_where (fun v => val_eqb v (gap_value g)) (temp_gap_array g)
                  (astype (extra_dtype g) (gap_value g)) (extra_matrix g) in
  argwhere (fun v => val_eqb v extra_code) new_extra_matrix.

Definition get_extra_matrix_points (g : Gapfiller) (draws : list coord)
  (gap_index : coord) : result selection :=
  extra_code <- of_option IndexError (getitem (extra_matrix g) gap_index) ;;
  let coords := same_class_coords g extra_code in
  sel <- (if length coords <? 40 then get_random_points g draws
          else Ok (Coords coords)) ;;
  match sel with
  | Signal s => Ok (Signal s)
  | Coords coords =>
      let distances := cdist gap_index coords in
      let selected_coords :=
        select_loop (Nat.min 40 (length coords)) coords distances [] in
      Ok (Coords (selected_coords ++ [gap_index]))
  end.

(** ** pandas data frames *)

Inductive label :=
| LInt (n : nat)
| LStr (s : string).

Definition label_eqb (a b : label) : bool :=
  match a, b with
  | LInt n, LInt m => n =? m
  | LStr s, LStr t => String.eqb s t
  | _, _ => false
  end.

(** A frame is the list of its labelled columns. *)
Definition DataFrame := list (label * list value).

Definition nrows (df : DataFrame) : nat :=
  match df with
  | [] => 0
  | c :: _ => length (snd c)
  end.

(** [df.iloc[r, :]] *)
Definition row_at (df : DataFrame) (r : nat) : list value :=
  map (fun c => nth r (snd c) NaN) df.

Definition rows_of (df : DataFrame) : list (list value) :=
  map (row_at df) (seq 0 (nrows df)).

(** The frame made of the rows [rs] of [df], in that order. *)
Definition take_rows (rs : list nat) (df : DataFrame) : DataFrame :=
  map (fun c => (fst c, map (fun r => nth r (snd c) NaN) rs)) df.

(** [str(i)] *)
Definition str (i : nat) : string :=
  NilEmpty.string_of_uint (Nat.to_uint i).

(** [df.set_axis(labels, axis=1, copy=False)]: a new frame that carries the
    labels; [df] keeps its own. *)
Definition set_axis (labels : list label) (df : DataFrame) : DataFrame :=
  combine labels (map snd df).

(** [df.replace(old, new, inplace=True)] *)
Definition replace (old new : value) (df : DataFrame) : DataFrame :=
  map (fun c => (fst c, map (fun v => if val_eqb v old then new else v)
                            (snd c))) df.

(** [df.dropna(how='all')] *)
Definition dropna_all (df : DataFrame) : DataFrame :=
  take_rows (filter (fun r => negb (forallb isnan (row_at df r)))
                    (seq 0 (nrows df))) df.

(** [df.dropna()] *)
Definition dropna (df : DataFrame) : DataFrame :=
  take_rows (filter (fun r => forallb (fun v => negb (isnan v)) (row_at df r))
                    (seq 0 (nrows df))) df.

(** [df.drop([l], axis=1, inplace=True)] *)
Definition drop (l : label) (df : DataFrame) : result DataFrame :=
  if existsb (fun c => label_eqb (fst c) l) df
  then Ok (filter (fun c => negb (label_eqb (fst c) l)) df)
  else Raise KeyError.

Fixpoint positions_from (p : value -> bool) (k : nat) (l : list value)
  : list nat :=
  match l with
  | [] => []
  | v :: l' =>
      if p v then k :: positions_from p (S k) l'
      else positions_from p (S k) l'
  end.

(** ** create_dataframe *)

Definition column_of (g : Gapfiller) (c : coord) : result (list value) :=
  history <-
    match training_data g with
    | [] => Raise IndexError
    | ts => mapM (fun t => of_option IndexError (getitem t c)) ts
    end ;;
  target <- of_option IndexError (getitem (temp_gap_array g) c) ;;
  Ok (history ++ [target]).

Definition create_dataframe (g : Gapfiller) (coords : list coord)
  : result DataFrame :=
  cols <- mapM (column_of g) coords ;;
  Ok (combine (map LInt (seq 0 (length coords))) cols).

(** ** preprocess_dataframe *)

Definition string_labels (df : DataFrame) : list label :=
  map (fun i => LStr (str i)) (seq 0 (length df)).

Definition preprocess_dataframe (df : DataFrame) : result DataFrame :=
  (* dataframe.iloc[-1:, :-1], ravelled *)
  let last_row := concat (map (fun c => last_slice (snd c)) (but_last df)) in
  let indexes_na := positions_from isnan 0 last_row in
  match indexes_na with
  | [] => Ok df
  | _ =>
      df' <- fold_left (fun acc i => d <- acc ;; drop (LInt i) d)
                       indexes_na (Ok df) ;;
      (* the result of set_axis is not kept *)
      let _unused := set_axis (string_labels df') df' in
      Ok df'
  end.

(** Lines 289 to 299 of [pixel_model]: the table of the selected pixels,
    cleaned. *)
Definition feature_table (g : Gapfiller) (coords : list coord)
  : result DataFrame :=
  dataframe <- create_dataframe g coords ;;
  (* the result of set_axis is not kept *)
  let _unused := set_axis (string_labels dataframe) dataframe in
  let dataframe := replace minus100 NaN dataframe in
  let dataframe := dropna_all dataframe in
  preprocess_dataframe dataframe.

(** ** get_train_test_sets *)

Definition get_train_test_sets (df : DataFrame)
  : list (list value) * list (list value) * list (list value) :=
  let train := map (fun c => (fst c, but_last (snd c))) df in
  let test := map (fun c => (fst c, last_slice (snd c))) df in
  let train := dropna train in
  let X_train := map (@but_last value) (rows_of train) in
  let y_train := map (@last_slice value) (rows_of train) in
  let X_test := map (@but_last value) (rows_of test) in
  (X_train, y_train, X_test).

(** [X.any()] *)
Definition any (X : list (list value)) : bool :=
  existsb truthy (concat X).

(** ** interpolation *)

(** The known pixels of [m], [(x_known, y_known)] with [values_known]. *)
Definition known_scatter (m : matrix) : list (coord * value) :=
  combine (argwhere (fun v => negb (isnan v)) m)
          (filter (fun v => negb (isnan v)) (concat m)).

Fixpoint nearest_from (xi : coord) (pts : list (coord * value))
  (best : coord * value) : value :=
  match pts with
  | [] => snd best
  | p :: pts' =>
      if (sqdist xi (fst p) <? sqdist xi (fst best))%Z
      then nearest_from xi pts' p
      else nearest_from xi pts' best
  end.

(** [interpolate.griddata(points, values, xi, method='nearest')]: the value
    of a known point at the least distance from [xi]; among several points
    at that distance the first one in row-major order stands for the one
    that the tree search of SciPy finds.  Without any known point the
    search finds no neighbour and the answer is NaN. *)
Definition griddata_nearest (pts : list (coord * value)) (xi : coord)
  : result pyval :=
  match pts with
  | [] => Ok (PFloat NaN)
  | p :: pts' => Ok (PFloat (nearest_from xi pts' p))
  end.

Definition interpolation (g : Gapfiller) (gap_index : coord)
  : result pyval :=
  let a := temp_gap_array g in
  let all_pixels := Z.of_nat (size a) in
  if (all_pixels - Z.of_nat (count_where (fun v => val_eqb v minus100) a)
      + Z.of_nat (count_where isnan a) <=? 10)%Z
  then Ok PNone (* the message is printed and the function ends *)
  else
    let copy_matrix :=
      map (map (fun v => if val_eqb v (gap_value g) then NaN else v)) a in
    griddata_nearest (known_scatter copy_matrix) gap_index.

(** ** train_model, pixel_model and fill_the_gaps

    scikit-learn is kept abstract: what [preprocessing.scale],
    [cross_val_score], [fit], [predict] and the two searches return, or
    that they raise, is given by the variables of the section. *)

Definition gap_result := (coord * pyval * pyval * pyval)%type.

Definition gr_index (r : gap_result) : coord := fst (fst (fst r)).
Definition gr_prediction (r : gap_result) : pyval := snd (fst (fst r)).
Definition gr_actual_score (r : gap_result) : pyval := snd (fst r).
Definition gr_validation_score (r : gap_result) : pyval := snd r.

(** [p.item()] *)
Definition item (p : pyval) : result pyval :=
  match p with
  | PFloat v => Ok (PFloat v)
  | PArray [v] => Ok (PFloat v)
  | PArray _ => Raise ValueError
  | _ => Raise AttributeError
  end.

(** [abs(actual_value - prediction)] for a float [actual_value] *)
Definition abs_error (actual_value : value) (prediction : pyval)
  : result pyval :=
  match prediction with
  | PFloat p => Ok (PFloat (vabs (vsub actual_value p)))
  | PArray ps => Ok (PArray (map (fun p => vabs (vsub actual_value p)) ps))
  | _ => Raise TypeError
  end.

(** [abs(actual_value - prediction)] for an array [actual_value] *)
Definition abs_error_array (actual_value : matrix) (prediction : pyval)
  : result pyval :=
  match prediction with
  | PFloat p => Ok (PArray (map (fun v => vabs (vsub v p))
                                (concat actual_value)))
  | _ => Raise TypeError
  end.

(** [[v for v in list(ds.variables) if v not in ["lat", "lon", "time"]][0]] *)
Definition data_variable (ds : Dataset) : result key :=
  match filter (fun kv => negb (existsb (key_eqb (fst kv))
                                  [KName "lat"; KName "lon"; KName "time"]))
               ds with
  | [] => Raise IndexError
  | kv :: _ => Ok (fst kv)
  end.

(** [filled_array[i, j] = p]; NumPy stores [None] as NaN in a float
    array. *)
Definition assign (m : matrix) (c : coord) (p : pyval) : result matrix :=
  match p with
  | PNone => of_option IndexError (setitem m c NaN)
  | PFloat v => of_option IndexError (setitem m c v)
  | PArray [v] => of_option IndexError (setitem m c v)
  | _ => Raise ValueError
  end.

Section Learning.

Variable estimator : Type.

(** [preprocessing.scale] *)
Variable scale : list (list value) -> result (list (list value)).

(** [cross_val_score(estimator, X, y, cv=KFold(3, shuffle=True),
    scoring='neg_mean_absolute_error')]: one score per fold *)
Variable cross_val_score :
  list (list value) -> list value -> result (list value).

(** [SVR(kernel='linear', gamma='scale', C=1000, epsilon=1).fit(X, y)] *)
Variable fit : list (list value) -> list value -> result estimator.

(** [estimator.predict(X)]: one prediction per row of [X] *)
Variable predict : estimator -> list (list value) -> result (list value).

(** [optimizer.fit(X, y)] for [RandomizedSearchCV] and [GridSearchCV]:
    [best_estimator_] and [best_score_] *)
Variable randomized_search :
  list (list value) -> list value -> result (estimator * value).
Variable grid_search :
  list (list value) -> list value -> result (estimator * value).

Definition train_model (g : Gapfiller) (X_train y_train X_test :
  list (list value)) : result (pyval * pyval) :=
  if (learning_function g =? "SVR")%string then
    sample <- scale (X_train ++ X_test) ;;
    let X_train := but_last sample in
    let X_test := last_slice sample in
    if (hyperparameters g =? "Custom")%string then
      match cross_val_score X_train (concat y_train) with
      | Ok validation_score =>
          fitted <- fit X_train (concat y_train) ;;
          predicted <- predict fitted X_test ;;
          Ok (PArray predicted, PArray validation_score)
      | Raise _ => Ok (PNone, PNone)
      | Starved => Starved
      end
    else
      let optimizer :=
        if (hyperparameters g =? "RandomGridSearch")%string
        then Some randomized_search
        else if (hyperparameters g =? "FullGridSearch")%string
        then Some grid_search
        else None in
      match optimizer with
      | None => Ok (PNone, PNone) (* the name is unbound inside the try *)
      | Some search =>
          match search X_train (concat y_train) with
          | Ok (regression, best_score) =>
              predicted <- predict regression X_test ;;
              let validation_score := PFloat (vabs best_score) in
              Ok (PArray predicted, validation_score)
          | Raise _ => Ok (PNone, PNone)
          | Starved => Starved
          end
      end
  else Raise UnboundLocalError.

Definition pixel_model (g : Gapfiller) (draws : list coord)
  (gap_index : coord) : result gap_result :=
  coords <-
    (if (predictor g =? "AllPoints")%string then
       Ok (Coords (argwhere (non_gap_mask g) (temp_gap_array g)))
     else if (predictor g =? "RandomPoints")%string then
       get_random_points g draws
     else if (predictor g =? "LCC")%string then
       get_extra_matrix_points g draws gap_index
     else Raise UnboundLocalError) ;;
  match coords with
  | Signal _ =>
      prediction <- interpolation g gap_index ;;
      let validation_score := not_available in
      actual_score <-
        (if val_neqb (gap_value g) minus100 then
           actual_value <-
             dataset_getitem (actual_matrix g)
                             (KTuple (fst gap_index) (snd gap_index)) ;;
           abs_error_array actual_value prediction
         else Ok not_available) ;;
      Ok (gap_index, prediction, actual_score, validation_score)
  | Coords cs =>
      let coords :=
        if negb (predictor g =? "LCC")%string then cs ++ [gap_index]
        else cs in
      dataframe <- feature_table g coords ;;
      let '(X_train, y_train, X_test) := get_train_test_sets dataframe in
      pv <-
        (if negb (any X_train) then
           prediction <- interpolation g gap_index ;;
           Ok (prediction, not_available)
         else train_model g X_train y_train X_test) ;;
      pv <-
        (match fst pv with
         | PNone =>
             prediction <- interpolation g gap_index ;;
             Ok (prediction, not_available)
         | prediction =>
             prediction <- item prediction ;;
             Ok (prediction, snd pv)
         end) ;;
      let prediction := fst pv in
      let validation_score := snd pv in
      actual_score <-
        (if val_eqb (gap_value g) minus100 then
           variable <- data_variable (actual_matrix g) ;;
           data <- dataset_getitem (actual_matrix g) variable ;;
           actual_value <- of_option IndexError (getitem data gap_index) ;;
           abs_error actual_value prediction
         else Ok not_available) ;;
      Ok (gap_index, prediction, actual_score, validation_score)
  end.

(** The loop over [results] of [fill_the_gaps]. *)
Fixpoint reduce_results (results : list gap_result) (filled_array : matrix)
  (actual_scores validation_scores : list pyval)
  : result (matrix * list pyval * list pyval) :=
  match results with
  | [] => Ok (filled_array, actual_scores, validation_scores)
  | gap_pred_score :: results' =>
      let gap_index := gr_index gap_pred_score in
      filled_array <-
        assign filled_array gap_index (gr_prediction gap_pred_score) ;;
      reduce_results results' filled_array
        (actual_scores ++ [gr_actual_score gap_pred_score])
        (validation_scores ++ [gr_validation_score gap_pred_score])
  end.

(** [pool.imap(self.pixel_model, gap_indices)]: the Gap Results in the
    order of [gap_indices]; [rand gi] are the draws that the call for
    pixel [gi] takes from [random]. *)
Definition imap_pixel_model (g : Gapfiller) (rand : coord -> list coord)
  (gap_indices : list coord) : result (list gap_result) :=
  mapM (fun gi => pixel_model g (rand gi) gi) gap_indices.

Definition fill_the_gaps (g : Gapfiller) (rand : coord -> list coord)
  (gap_indices : list coord) : result (matrix * list pyval * list pyval) :=
  results <- imap_pixel_model g rand gap_indices ;;
  reduce_results results (temp_gap_array g) [] [].

End Learning.

Arguments train_model {estimator}.
Arguments pixel_model {estimator}.
Arguments imap_pixel_model {estimator}.
Arguments fill_the_gaps {estimator}.

(** ** Concrete runs *)

Definition zero : value := Num 0%Q.
Definition seven : value := Num 7%Q.

(** An [r] by [c] array whose cells all hold [v]. *)
Definition full (r c : nat) (v : value) : matrix := repeat (repeat v c) r.

(** The indices of an [r] by [c] array in row-major order. *)
Definition all_coords (r c : nat) : list coord :=
  flat_map (fun i => map (fun j => (i, j)) (seq 0 c)) (seq 0 r).

Definition put (c : coord) (v : value) (m : matrix) : matrix :=
  match setitem m c v with
  | Some m' => m'
  | None => m
  end.

Definition put_all (cs : list coord) (v : value) (m : matrix) : matrix :=
  fold_right (fun c acc => put c v acc) m cs.

(** A Gapfiller as [__init__] and [get_arrays] leave it: one array with
    gaps under the key ["0.1"], [history] as training data, nothing
    processed yet; the class array is a [uint8] array. *)
Definition loaded (pred hyper : string) (gv : value) (actual a : matrix)
  (history : list matrix) (lcc : matrix) : Gapfiller :=
  {| learning_function := "SVR";
     hyperparameters := hyper;
     predictor := pred;
     actual_matrix := [(KName "lat", []); (KName "lon", []);
                       (KName "time", []); (KName "ts", actual)];
     data_with_gaps := [("0.1"%string, a)];
     gap_value := gv;
     temp_gap_array := [];
     temp_known_pixels := 0;
     training_data := history;
     extra_matrix := lcc;
     extra_dtype := Unsigned 8 |}.

(** The state after [process_gap_array], [g] itself should that raise. *)
Definition processed (g : Gapfiller) : Gapfiller :=
  match process_gap_array g "0.1" with
  | Ok (g', _) => g'
  | _ => g
  end.

(** Real gaps: 11 x 10, pixel (0,0) is NaN, 109 known pixels. *)
Definition nan_array : matrix := put (0, 0) NaN (full 11 10 zero).
Definition nan_run : Gapfiller :=
  loaded "RandomPoints" "Custom" NaN nan_array nan_array
         [full 11 10 zero] (full 11 10 zero).

(** Artificial gaps: 11 x 10, pixel (0,0) is -100, 109 known pixels. *)
Definition sentinel_array : matrix := put (0, 0) minus100 (full 11 10 zero).
Definition sentinel_run : Gapfiller :=
  loaded "RandomPoints" "Custom" minus100 (full 11 10 zero) sentinel_array
         [full 11 10 zero] (full 11 10 zero).

(** Artificial gaps: 11 x 10, the ten pixels of row 0 are -100, exactly
    100 known pixels. *)
Definition boundary_array : matrix :=
  repeat minus100 10 :: full 10 10 zero.
Definition boundary_run : Gapfiller :=
  loaded "RandomPoints" "Custom" minus100 (full 11 10 zero) boundary_array
         [full 11 10 zero] (full 11 10 zero).

(** 5 x 5 arrays with the gaps at (0,0) and (2,3): 23 known pixels. *)
Definition small_gaps : list coord := [(0, 0); (2, 3)].
Definition small_nan_run : Gapfiller :=
  loaded "RandomPoints" "Custom" NaN
         (put_all small_gaps NaN (full 5 5 seven))
         (put_all small_gaps NaN (full 5 5 seven))
         [full 5 5 zero] (full 5 5 zero).
Definition small_sentinel_run : Gapfiller :=
  loaded "RandomPoints" "Custom" minus100 (full 5 5 seven)
         (put_all small_gaps minus100 (full 5 5 seven))
         [full 5 5 zero] (full 5 5 zero).

(** 4 x 5, the first two rows are -100: exactly 10 known pixels. *)
Definition ten_known_array : matrix :=
  full 2 5 minus100 ++ full 2 5 seven.
Definition ten_known_run : Gapfiller :=
  loaded "AllPoints" "Custom" minus100 (full 4 5 seven) ten_known_array
         [full 4 5 zero] (full 4 5 zero).

(** 4 x 5, the first row is -100: 15 known pixels. *)
Definition fifteen_known_run : Gapfiller :=
  loaded "AllPoints" "Custom" minus100 (full 4 5 seven)
         (full 1 5 minus100 ++ full 3 5 seven)
         [full 4 5 zero] (full 4 5 zero).

(** 7 x 7, one land-cover class, one gap at (3,3): 48 candidates. *)
Definition lcc_run : Gapfiller :=
  loaded "LCC" "Custom" minus100 (full 7 7 seven)
         (put (3, 3) minus100 (full 7 7 seven))
         [full 7 7 zero] (full 7 7 seven).

(** 1 x 3: a pixel without value, a known pixel and the gap; one
    historical image in which only the first pixel has a value. *)
Definition cloudy_run : Gapfiller :=
  loaded "AllPoints" "Custom" minus100 [[seven; seven; seven]]
         [[NaN; seven; minus100]]
         [[[Num 5%Q; NaN; NaN]]] [[zero; zero; zero]].
Definition cloudy_coords : list coord := [(0, 0); (0, 1); (0, 2)].

(** 3 x 4 with the gap at (1,1); two historical images that are zero
    everywhere but at the gap pixel. *)
Definition flat_run : Gapfiller :=
  loaded "AllPoints" "Custom" minus100 (full 3 4 seven)
         (put (1, 1) minus100 (full 3 4 seven))
         [put (1, 1) (Num 1%Q) (full 3 4 zero);
          put (1, 1) (Num 2%Q) (full 3 4 zero)]
         (full 3 4 zero).

(** A scikit-learn whose cross-validation scores three folds and whose
    estimator predicts 3. *)
Definition fold_scores : list value :=
  [Num (-1 # 2)%Q; Num (-1 # 4)%Q; Num (-1)%Q].
Definition scale_id (X : list (list value)) : result (list (list value)) :=
  Ok X.
Definition cv_folds (X : list (list value)) (y : list value)
  : result (list value) := Ok fold_scores.
Definition fit_unit (X : list (list value)) (y : list value) : result unit :=
  Ok tt.
Definition predict_three (e : unit) (X : list (list value))
  : result (list value) := Ok (map (fun _ => Num 3%Q) X).
Definition search_unit (X : list (list value)) (y : list value)
  : result (unit * value) := Ok (tt, Num (-1 # 2)%Q).

(** ** The claims' own notions *)

(** A Gap Result's validation score in the spec: one non-negative number. *)
Definition nonneg_number (p : pyval) : bool :=
  match p with
  | PFloat (Num q) => Qle_bool 0 q
  | _ => false
  end.

(** The usable known values of the Target Matrix: what is left once the
    gap marker is masked as missing. *)
Definition usable_known (g : Gapfiller) : nat :=
  count_where (fun v => negb (isnan v || val_eqb v (gap_value g)))
              (temp_gap_array g).

(** Pixel [c] of the Target Matrix carries the gap marker. *)
Definition gap_marked (g : Gapfiller) (c : coord) : Prop :=
  exists v, getitem (temp_gap_array g) c = Some v /\ gap_mask g v = true.

(** What the sampling loop lets through: a pixel that it can read and that
    neither [np.isclose] test flags. *)
Definition accepted (a : matrix) (c : coord) : Prop :=
  exists v, getitem a c = Some v
            /\ (isclose v minus100 || isclose v NaN) = false.

Definition is_fin (d : distance) : bool :=
  match d with Fin _ => true | Inf => false end.

(** The entries of [distances] that no pass has overwritten yet. *)
Definition finite_count (ds : list distance) : nat :=
  length (filter is_fin ds).

(** Entry [i] of [ds] comes before entry [j]: it is smaller, or it is as
    small and earlier in the array. *)
Definition lex (ds : list distance) (i j : nat) : Prop :=
  dist_ltb (nth i ds Inf) (nth j ds Inf) = true
  \/ (dist_ltb (nth j ds Inf) (nth i ds Inf) = false /\ i < j).

(** Candidate [i] comes before candidate [j]: it is nearer to the target
    pixel, or as near and earlier in [coords]. *)
Definition before (target : coord) (coords : list coord) (i j : nat)
  : Prop :=
  Z.lt (sqdist target (nth i coords (0, 0)))
       (sqdist target (nth j coords (0, 0)))
  \/ (sqdist target (nth i coords (0, 0))
      = sqdist target (nth j coords (0, 0)) /\ i < j).

(** The column labels are the range index [0 .. n-1] that
    [pd.DataFrame(array)] gives. *)
Definition labelled (df : DataFrame) : Prop :=
  map fst df = map LInt (seq 0 (length df)).

(** Every column has [k] entries. *)
Definition rect (k : nat) (df : DataFrame) : Prop :=
  forall c, In c df -> length (snd c) = k.

(** The column is not among the labels [LInt i], [i] in [drops]. *)
Definition kept (drops : list nat) (c : label * list value) : bool :=
  negb (existsb (label_eqb (fst c)) (map LInt drops)).

(** What the spec says of the cleaned feature table: no row is missing
    everywhere, no column is missing in the target (last) row, the labels
    are ["0"], ["1"], ... *)
Definition claimed_clean (df : DataFrame) : Prop :=
  (forall r, r < nrows df -> forallb isnan (row_at df r) = false)
  /\ (forall c v, In c df -> In v (last_slice (snd c)) -> isnan v = false)
  /\ map fst df = string_labels df.

(** ** Further notions *)

(** The two tests of the sampling loop on the value of a drawn pixel. *)
Definition passes (v : value) : bool :=
  negb (isclose v minus100 || isclose v NaN).

(** The 3 x 4 run with a randomized search, and with a hyperparameter
    mode that the code does not know. *)
Definition search_run : Gapfiller :=
  loaded "AllPoints" "RandomGridSearch" minus100 (full 3 4 seven)
         (put (1, 1) minus100 (full 3 4 seven))
         [full 3 4 seven; full 3 4 zero] (full 3 4 zero).
Definition unknown_mode_run : Gapfiller :=
  loaded "AllPoints" "BayesSearch" minus100 (full 3 4 seven)
         (put (1, 1) minus100 (full 3 4 seven))
         [full 3 4 seven; full 3 4 zero] (full 3 4 zero).

(** * Proofs *)

(** ** The result type *)

Lemma bind_Ok {A B} (r : result A) (k : A -> result B) (b : B) :
  bind r k = Ok b -> exists a, r = Ok a /\ k a = Ok b.
Proof.
  destruct r as [a | e | ]; simpl; intros H; try discriminate.
  exists a; split; [reflexivity | exact H].
Qed.

Lemma mapM_Ok_length {A B} (f : A -> result B) (l : list A) (bs : list B) :
  mapM f l = Ok bs -> length bs = length l.
Proof.
  revert bs; induction l as [| a l IH]; simpl; intros bs H.
  - injection H as <-; reflexivity.
  - apply bind_Ok in H as (b & _ & H).
    apply bind_Ok in H as (bs' & Hbs & H).
    injection H as <-; simpl; f_equal; apply IH; exact Hbs.
Qed.

Lemma mapM_total {A B} (f : A -> result B) (l : list A) :
  (forall a, In a l -> exists b, f a = Ok b) ->
  exists bs, mapM f l = Ok bs.
Proof.
  induction l as [| a l IH]; simpl; intros H.
  - exists []; reflexivity.
  - destruct (H a (or_introl eq_refl)) as (b & Hb).
    destruct IH as (bs & Hbs); [intros x Hx; apply H; right; exact Hx |].
    exists (b :: bs); rewrite Hb, Hbs; reflexivity.
Qed.

Lemma mapM_Ok_map {A B} (f : A -> result B) (g : B -> A) (l : list A)
  (bs : list B) :
  (forall a b, f a = Ok b -> g b = a) ->
  mapM f l = Ok bs -> map g bs = l.
Proof.
  intros Hfg; revert bs; induction l as [| a l IH]; simpl; intros bs H.
  - injection H as <-; reflexivity.
  - apply bind_Ok in H as (b & Hb & H).
    apply bind_Ok in H as (bs' & Hbs & H).
    injection H as <-; simpl; f_equal;
      [apply Hfg; exact Hb | apply IH; exact Hbs].
Qed.

Lemma mapM_Ok_Forall {A B} (f : A -> result B) (P : B -> Prop) (l : list A)
  (bs : list B) :
  (forall a b, In a l -> f a = Ok b -> P b) ->
  mapM f l = Ok bs -> Forall P bs.
Proof.
  revert bs; induction l as [| a l IH]; simpl; intros bs HP H.
  - injection H as <-; constructor.
  - apply bind_Ok in H as (b & Hb & H).
    apply bind_Ok in H as (bs' & Hbs & H).
    injection H as <-; constructor.
    + apply (HP a); [left; reflexivity | exact Hb].
    + apply IH; [intros x y Hx; apply HP; right; exact Hx | exact Hbs].
Qed.

(** ** argwhere *)

Lemma coord_eqb_eq (a b : coord) : coord_eqb a b = true <-> a = b.
Proof.
  destruct a as [a1 a2], b as [b1 b2]; unfold coord_eqb; simpl.
  rewrite andb_true_iff, !Nat.eqb_eq; split.
  - intros [-> ->]; reflexivity.
  - intros H; injection H as -> ->; split; reflexivity.
Qed.

Lemma where_row_In p i j row a b :
  In (a, b) (where_row p i j row) <->
  a = i /\ exists k v, b = j + k /\ nth_error row k = Some v /\ p v = true.
Proof.
  revert j; induction row as [| v row IH]; intros j; simpl.
  - split; [intros [] | intros (_ & [| k] & w & _ & H & _); discriminate].
  - assert (Htail : In (a, b) (where_row p i (S j) row) <->
              a = i /\ exists k w, b = j + S k /\ nth_error row k = Some w
                                   /\ p w = true).
    { rewrite IH; split; intros (Ha & k & w & Hb & Hk & Hp); split; trivial;
        exists k, w; repeat split; trivial; lia. }
    destruct (p v) eqn:Hpv; simpl; rewrite Htail; split.
    + intros [H | (Ha & k & w & Hb & Hk & Hp)].
      * injection H as <- <-; split; [reflexivity |].
        exists 0, v; repeat split; trivial; lia.
      * split; [exact Ha | exists (S k), w; repeat split; trivial].
    + intros (Ha & [| k] & w & Hb & Hk & Hp); simpl in Hk.
      * left; subst; f_equal; lia.
      * right; split; [exact Ha | exists k, w; repeat split; trivial].
    + intros (Ha & k & w & Hb & Hk & Hp).
      split; [exact Ha | exists (S k), w; repeat split; trivial].
    + intros (Ha & [| k] & w & Hb & Hk & Hp); simpl in Hk.
      * injection Hk as <-; congruence.
      * split; [exact Ha | exists k, w; repeat split; trivial].
Qed.

Lemma argwhere_from_In p i m a b :
  In (a, b) (argwhere_from p i m) <->
  exists k row v, a = i + k /\ nth_error m k = Some row
                  /\ nth_error row b = Some v /\ p v = true.
Proof.
  revert i; induction m as [| row m IH]; intros i; simpl.
  - split; [intros [] | intros ([| k] & r & v & _ & H & _); discriminate].
  - rewrite in_app_iff, where_row_In, IH; split.
    + intros [(Ha & k & v & Hb & Hk & Hp) | (k & r & v & Ha & Hk & Hb & Hp)].
      * exists 0, row, v; simpl in Hb; subst; repeat split; trivial; lia.
      * exists (S k), r, v; repeat split; trivial; lia.
    + intros ([| k] & r & v & Ha & Hk & Hb & Hp); simpl in Hk.
      * injection Hk as <-; left; split; [lia |].
        exists b, v; repeat split; trivial.
      * right; exists k, r, v; repeat split; trivial; lia.
Qed.

Lemma argwhere_In p m c :
  In c (argwhere p m) <-> exists v, getitem m c = Some v /\ p v = true.
Proof.
  destruct c as [a b]; unfold argwhere, getitem; simpl.
  rewrite argwhere_from_In; split.
  - intros (k & row & v & Ha & Hk & Hb & Hp); simpl in Ha; subst k.
    exists v; rewrite Hk; split; trivial.
  - intros (v & H & Hp); destruct (nth_error m a) as [row |] eqn:Hrow;
      [| discriminate].
    exists a, row, v; repeat split; trivial.
Qed.

Lemma where_row_NoDup p i j row : NoDup (where_row p i j row).
Proof.
  revert j; induction row as [| v row IH]; intros j; simpl; [constructor |].
  destruct (p v); [| apply IH].
  constructor; [| apply IH].
  rewrite where_row_In; intros (_ & k & w & Hb & _); lia.
Qed.

Lemma argwhere_from_NoDup p i m : NoDup (argwhere_from p i m).
Proof.
  revert i; induction m as [| row m IH]; intros i; simpl; [constructor |].
  apply NoDup_app; [apply where_row_NoDup | apply IH |].
  intros [a b] H1 H2.
  apply where_row_In in H1 as (Ha & _).
  apply argwhere_from_In in H2 as (k & _ & _ & Hk & _); lia.
Qed.

Lemma argwhere_NoDup p m : NoDup (argwhere p m).
Proof. apply argwhere_from_NoDup. Qed.

Lemma where_row_length p i j row :
  length (where_row p i j row) = length (filter p row).
Proof.
  revert j; induction row as [| v row IH]; intros j; simpl; [reflexivity |].
  destruct (p v); simpl; rewrite IH; reflexivity.
Qed.

Lemma argwhere_length p m : length (argwhere p m) = count_where p m.
Proof.
  unfold argwhere, count_where; generalize 0.
  induction m as [| row m IH]; intros i; simpl; [reflexivity |].
  rewrite length_app, filter_app, length_app, where_row_length, IH.
  reflexivity.
Qed.

(** ** get_random_points *)

Lemma existsb_coord_eqb c cs :
  existsb (coord_eqb c) cs = false -> ~ In c cs.
Proof.
  intros H Hin.
  assert (existsb (coord_eqb c) cs = true); [| congruence].
  apply existsb_exists; exists c; split; [exact Hin |].
  apply coord_eqb_eq; reflexivity.
Qed.

Lemma sampling_loop_Ok a iv draws : forall coords n cs,
  sampling_loop a iv draws coords n = Ok cs ->
  n <= S iv ->
  length cs + n = length coords + S iv
  /\ (NoDup coords -> NoDup cs)
  /\ (forall c, In c cs -> In c coords \/ accepted a c).
Proof.
  induction draws as [| d draws IH]; intros coords n cs H Hn; simpl in H.
  - destruct (n <=? iv) eqn:E; [discriminate |].
    apply Nat.leb_gt in E; injection H as <-.
    repeat split; [lia | trivial | intros c Hc; left; exact Hc].
  - destruct (n <=? iv) eqn:E.
    2:{ apply Nat.leb_gt in E; injection H as <-.
        repeat split; [lia | trivial | intros c Hc; left; exact Hc]. }
    apply Nat.leb_le in E.
    destruct (getitem a d) as [v |] eqn:Hv; [| discriminate].
    destruct (isclose v minus100 || isclose v NaN) eqn:Hc.
    { apply IH; [exact H | exact Hn]. }
    destruct (existsb (coord_eqb d) coords) eqn:Hd.
    { apply IH; [exact H | exact Hn]. }
    apply IH in H as (Hlen & Hnd & Hin); [| lia].
    rewrite length_app in Hlen; simpl in Hlen.
    repeat split; [lia | |].
    + intros Hc0; apply Hnd.
      apply NoDup_app; [exact Hc0 | repeat constructor; intros [] |].
      intros x Hx [<- | []].
      apply existsb_coord_eqb in Hd; contradiction.
    + intros c Hc0; destruct (Hin c Hc0) as [Hc1 | Hc1]; [| right; exact Hc1].
      apply in_app_iff in Hc1 as [Hc1 | [<- | []]]; [left; exact Hc1 |].
      right; exists v; split; trivial.
Qed.

(** Whenever the sampling branch returns, it returns 101 distinct pixels,
    each of which passed the two [np.isclose] tests. *)
Lemma get_random_points_sampled g draws cs :
  (100 <= temp_known_pixels g)%Z ->
  get_random_points g draws = Ok (Coords cs) ->
  length cs = 101 /\ NoDup cs
  /\ forall c, In c cs -> accepted (temp_gap_array g) c.
Proof.
  intros Hk H; unfold get_random_points in H.
  apply Z.leb_le in Hk; rewrite Hk in H.
  apply bind_Ok in H as (cs' & Hloop & H); injection H as <-.
  apply sampling_loop_Ok in Hloop as (Hlen & Hnd & Hin); [| lia].
  simpl in Hlen; repeat split; [lia | apply Hnd; constructor |].
  intros c Hc; destruct (Hin c Hc) as [[] | Hacc]; exact Hacc.
Qed.

(** Whatever branch answers, the coordinates that [get_random_points]
    returns are pairwise distinct. *)
Lemma get_random_points_NoDup g draws cs :
  get_random_points g draws = Ok (Coords cs) -> NoDup cs.
Proof.
  intros H; destruct (100 <=? temp_known_pixels g)%Z eqn:E.
  - apply Z.leb_le in E.
    apply (get_random_points_sampled g draws cs E H).
  - unfold get_random_points in H; rewrite E in H.
    destruct (50 <=? temp_known_pixels g)%Z; [| discriminate].
    injection H as <-; apply argwhere_NoDup.
Qed.

(** Below 50 known pixels the signal, from 50 to 99 every pixel that the
    non-gap mask lets through. *)
Lemma get_random_points_small g draws :
  (temp_known_pixels g < 100)%Z ->
  get_random_points g draws
  = if (50 <=? temp_known_pixels g)%Z
    then Ok (Coords (argwhere (non_gap_mask g) (temp_gap_array g)))
    else Ok (Signal not_enough).
Proof.
  intros H; unfold get_random_points.
  apply Z.leb_gt in H; rewrite H; reflexivity.
Qed.

(** C5 (code bug).  Real gaps, 109 known pixels: the first draw is the
    NaN pixel (0,0); [np.isclose(nan, nan)] is false, so the loop takes it
    and [get_random_points] returns a gap-marked coordinate. *)
Theorem get_random_points_returns_gap_pixel :
  exists cs,
    get_random_points (processed nan_run) (all_coords 11 10) = Ok (Coords cs)
    /\ In (0, 0) cs
    /\ gap_marked (processed nan_run) (0, 0).
Proof.
  eexists; split; [vm_compute; reflexivity |].
  split; [left; reflexivity |].
  exists NaN; split; vm_compute; reflexivity.
Qed.

(** C6 (code bug).  Artificial gaps, 109 known pixels: the loop runs while
    [number_iter <= 100] and hands back 101 coordinates, not 100. *)
Theorem get_random_points_collects_101 :
  exists cs,
    get_random_points (processed sentinel_run) (all_coords 11 10)
    = Ok (Coords cs)
    /\ length cs = 101.
Proof.
  eexists; split; vm_compute; reflexivity.
Qed.

Lemma accepted_argwhere a c :
  accepted a c ->
  In c (argwhere (fun v => negb (isclose v minus100 || isclose v NaN)) a).
Proof.
  intros (v & Hv & Hc); apply argwhere_In; exists v; split; [exact Hv |].
  rewrite Hc; reflexivity.
Qed.

(** C10 (code bug).  Artificial gaps, exactly 100 known pixels and no other
    pixel that the loop accepts: whatever [random] draws, and however many
    draws it is given, the loop has not returned, since it asks for a 101st
    distinct accepted pixel. *)
Theorem get_random_points_never_returns_at_100 :
  forall draws,
    temp_known_pixels (processed boundary_run) = 100%Z
    /\ returns (get_random_points (processed boundary_run) draws) = false.
Proof.
  intros draws; split; [vm_compute; reflexivity |].
  destruct (get_random_points (processed boundary_run) draws)
    as [[cs | s] | e | ] eqn:H; try reflexivity; exfalso.
  - apply get_random_points_sampled in H as (Hlen & Hnd & Hacc);
      [| vm_compute; discriminate].
    assert (Hle : length cs <= 100).
    { assert (Hcount :
        length (argwhere (fun v => negb (isclose v minus100 || isclose v NaN))
                         (temp_gap_array (processed boundary_run))) = 100)
        by (vm_compute; reflexivity).
      rewrite <- Hcount.
      apply NoDup_incl_length; [exact Hnd |].
      intros c Hc; apply accepted_argwhere, Hacc, Hc. }
    lia.
  - unfold get_random_points in H.
    replace (temp_known_pixels (processed boundary_run)) with 100%Z in H
      by (vm_compute; reflexivity).
    simpl in H.
    destruct (sampling_loop _ _ _ _ _); discriminate.
Qed.

(** ** get_extra_matrix_points *)

Lemma length_set_nth {A} (l : list A) k a : length (set_nth l k a) = length l.
Proof.
  revert k; induction l as [| x l IH]; intros [| k]; simpl; auto.
Qed.

Lemma nth_set_nth_eq {A} (l : list A) k a d :
  k < length l -> nth k (set_nth l k a) d = a.
Proof.
  revert k; induction l as [| x l IH]; intros [| k]; simpl; intros H;
    try lia; auto.
  apply IH; lia.
Qed.

Lemma nth_set_nth_neq {A} (l : list A) k j a d :
  j <> k -> nth j (set_nth l k a) d = nth j l d.
Proof.
  revert k j; induction l as [| x l IH]; intros [| k] [| j]; simpl; intros H;
    try congruence; auto.
Qed.

Lemma nth_error_set_nth_eq {A} (l : list A) k a :
  k < length l -> nth_error (set_nth l k a) k = Some a.
Proof.
  revert k; induction l as [| x l IH]; intros [| k]; simpl; intros H;
    try lia; auto.
  apply IH; lia.
Qed.

Lemma nth_error_set_nth_neq {A} (l : list A) k j a :
  j <> k -> nth_error (set_nth l k a) j = nth_error l j.
Proof.
  revert k j; induction l as [| x l IH]; intros [| k] [| j]; simpl; intros H;
    try congruence; auto.
Qed.

Lemma dist_ltb_irrefl d : dist_ltb d d = false.
Proof. destruct d; simpl; [apply Z.ltb_irrefl | reflexivity]. Qed.

Lemma dist_lt_le_lt a b c :
  dist_ltb a b = true -> dist_ltb c b = false -> dist_ltb a c = true.
Proof.
  destruct a, b, c; simpl; try congruence; try reflexivity;
    rewrite ?Z.ltb_lt, ?Z.ltb_ge; lia.
Qed.

Lemma dist_lt_le_ge a b c :
  dist_ltb a b = true -> dist_ltb c b = false -> dist_ltb c a = false.
Proof.
  destruct a, b, c; simpl; try congruence; try reflexivity;
    rewrite ?Z.ltb_lt, ?Z.ltb_ge; lia.
Qed.

Lemma dist_le_trans a b c :
  dist_ltb b a = false -> dist_ltb c b = false -> dist_ltb c a = false.
Proof.
  destruct a, b, c; simpl; try congruence; try reflexivity;
    rewrite ?Z.ltb_ge; lia.
Qed.

Lemma argmin_from_spec ds : forall pre best,
  best < length pre ->
  (forall j, j < length pre ->
             dist_ltb (nth j pre Inf) (nth best pre Inf) = false) ->
  (forall j, j < best ->
             dist_ltb (nth best pre Inf) (nth j pre Inf) = true) ->
  let r := argmin_from ds (length pre) best (nth best pre Inf) in
  r < length (pre ++ ds)
  /\ (forall j, j < length (pre ++ ds) ->
        dist_ltb (nth j (pre ++ ds) Inf) (nth r (pre ++ ds) Inf) = false)
  /\ (forall j, j < r ->
        dist_ltb (nth r (pre ++ ds) Inf) (nth j (pre ++ ds) Inf) = true).
Proof.
  induction ds as [| d ds IH]; intros pre best Hb Hmin Hfirst; simpl.
  - rewrite app_nil_r; auto.
  - assert (Hlen : length (pre ++ [d]) = S (length pre))
      by (rewrite length_app; simpl; lia).
    assert (Hd : nth (length pre) (pre ++ [d]) Inf = d)
      by (rewrite app_nth2, Nat.sub_diag; [reflexivity | lia]).
    assert (Hold : forall j, j < length pre ->
              nth j (pre ++ [d]) Inf = nth j pre Inf)
      by (intros j Hj; apply app_nth1; exact Hj).
    replace (pre ++ d :: ds) with ((pre ++ [d]) ++ ds)
      by (rewrite <- app_assoc; reflexivity).
    destruct (dist_ltb d (nth best pre Inf)) eqn:E.
    + specialize (IH (pre ++ [d]) (length pre)).
      rewrite Hd, Hlen in IH; apply IH.
      * lia.
      * intros j Hj.
        destruct (Nat.eq_dec j (length pre)) as [-> | Hne].
        -- rewrite Hd; apply dist_ltb_irrefl.
        -- rewrite Hold by lia.
           apply (dist_lt_le_ge _ _ _ E), Hmin; lia.
      * intros j Hj; rewrite Hold by lia.
        apply (dist_lt_le_lt _ _ _ E), Hmin; lia.
    + specialize (IH (pre ++ [d]) best).
      rewrite (Hold best Hb), Hlen in IH; apply IH.
      * lia.
      * intros j Hj.
        destruct (Nat.eq_dec j (length pre)) as [-> | Hne].
        -- rewrite Hd; exact E.
        -- rewrite Hold by lia; apply Hmin; lia.
      * intros j Hj; rewrite Hold by lia.
        apply Hfirst; exact Hj.
Qed.

(** [np.argmin] returns the first position of a least entry. *)
Lemma argmin_spec ds :
  ds <> [] ->
  argmin ds < length ds
  /\ (forall j, j < length ds ->
        dist_ltb (nth j ds Inf) (nth (argmin ds) ds Inf) = false)
  /\ (forall j, j < argmin ds ->
        dist_ltb (nth (argmin ds) ds Inf) (nth j ds Inf) = true).
Proof.
  destruct ds as [| d ds]; [congruence | intros _].
  apply (argmin_from_spec ds [d] 0); simpl.
  - lia.
  - intros j Hj; replace j with 0 by lia; apply dist_ltb_irrefl.
  - intros j Hj; lia.
Qed.

Lemma argmin_lex ds j :
  ds <> [] -> j < length ds -> j <> argmin ds -> lex ds (argmin ds) j.
Proof.
  intros Hds Hj Hne.
  destruct (argmin_spec ds Hds) as (_ & Hmin & Hfirst).
  destruct (Nat.lt_ge_cases j (argmin ds)) as [Hlt | Hge].
  - left; apply Hfirst; exact Hlt.
  - right; split; [apply Hmin; exact Hj | lia].
Qed.

Lemma finite_count_pos ds :
  0 < finite_count ds ->
  exists j, j < length ds /\ is_fin (nth j ds Inf) = true.
Proof.
  unfold finite_count; induction ds as [| d ds IH]; simpl; [lia |].
  destruct (is_fin d) eqn:E; simpl; intros H.
  - exists 0; split; [lia | exact E].
  - destruct (IH H) as (j & Hj & Hf); exists (S j); split; [lia | exact Hf].
Qed.

Lemma finite_count_set_nth ds k :
  k < length ds -> is_fin (nth k ds Inf) = true ->
  S (finite_count (set_nth ds k Inf)) = finite_count ds.
Proof.
  unfold finite_count; revert k; induction ds as [| d ds IH];
    intros [| k]; simpl; intros Hk Hf; try lia.
  - rewrite Hf; reflexivity.
  - destruct (is_fin d); simpl; rewrite <- (IH k) by (trivial; lia);
      reflexivity.
Qed.

Lemma argmin_finite ds :
  0 < finite_count ds -> is_fin (nth (argmin ds) ds Inf) = true.
Proof.
  intros H; destruct (finite_count_pos ds H) as (j & Hj & Hf).
  assert (Hds : ds <> [])
    by (destruct ds; unfold finite_count in *; simpl in *;
        [lia | congruence]).
  destruct (argmin_spec ds Hds) as (_ & Hmin & _).
  specialize (Hmin j Hj).
  destruct (nth j ds Inf), (nth (argmin ds) ds Inf); simpl in *;
    congruence.
Qed.

Lemma lex_set_nth ds k i j :
  i <> k -> j <> k -> lex (set_nth ds k Inf) i j -> lex ds i j.
Proof.
  unfold lex; intros Hi Hj; rewrite !nth_set_nth_neq by assumption; auto.
Qed.

(** The passes of the selection loop pick the [n] first entries of the
    order [lex], in that order. *)
Lemma select_indices_spec n : forall ds,
  n <= finite_count ds ->
  length (select_indices n ds) = n
  /\ (forall i, In i (select_indices n ds) ->
        i < length ds /\ is_fin (nth i ds Inf) = true)
  /\ StronglySorted (lex ds) (select_indices n ds)
  /\ (forall i j, In i (select_indices n ds) -> j < length ds ->
        ~ In j (select_indices n ds) -> lex ds i j).
Proof.
  induction n as [| n IH]; intros ds Hn; simpl.
  - split; [reflexivity |].
    split; [intros i [] |].
    split; [constructor | intros i j []].
  - set (k := argmin ds).
    assert (Hpos : 0 < finite_count ds) by lia.
    assert (Hds : ds <> [])
      by (destruct ds; unfold finite_count in *; simpl in *;
          [lia | congruence]).
    assert (Hk : k < length ds) by apply (argmin_spec ds Hds).
    assert (Hkf : is_fin (nth k ds Inf) = true) by (apply argmin_finite, Hpos).
    pose proof (finite_count_set_nth ds k Hk Hkf) as Hcount.
    destruct (IH (set_nth ds k Inf)) as (Hlen & Hin & Hsorted & Hrest);
      [lia |].
    assert (Hnek : forall i, In i (select_indices n (set_nth ds k Inf)) ->
              i <> k /\ i < length ds /\ is_fin (nth i ds Inf) = true).
    { intros i Hi; destruct (Hin i Hi) as (Hil & Hif).
      rewrite length_set_nth in Hil.
      assert (i <> k).
      { intros ->; rewrite nth_set_nth_eq in Hif by exact Hk; discriminate. }
      rewrite nth_set_nth_neq in Hif by assumption; auto. }
    split; [rewrite Hlen; reflexivity |].
    split; [| split].
    + intros i [<- | H]; [split; [exact Hk | exact Hkf] |].
      split; apply (Hnek i H).
    + constructor.
      * clear Hrest Hlen.
        induction Hsorted as [| i l Hs IHs Hall]; constructor.
        -- apply IHs.
           ++ intros x Hx; apply Hin; right; exact Hx.
           ++ intros x Hx; apply Hnek; right; exact Hx.
        -- rewrite Forall_forall in *; intros x Hx.
           apply (lex_set_nth ds k).
           ++ apply (Hnek i); left; reflexivity.
           ++ apply (Hnek x); right; exact Hx.
           ++ apply Hall; exact Hx.
      * rewrite Forall_forall; intros x Hx.
        destruct (Hnek x Hx) as (Hxk & Hxl & _).
        apply argmin_lex; auto.
    + intros i j [<- | Hi] Hj Hnot.
      * apply argmin_lex; auto.
      * destruct (Hnek i Hi) as (Hik & _).
        apply (lex_set_nth ds k); [exact Hik | intuition |].
        apply Hrest; [exact Hi | rewrite length_set_nth; exact Hj |].
        intuition.
Qed.

Lemma select_loop_indices n coords : forall ds selected,
  select_loop n coords ds selected
  = selected ++ map (fun k => nth k coords (0, 0)) (select_indices n ds).
Proof.
  induction n as [| n IH]; intros ds selected; simpl.
  - rewrite app_nil_r; reflexivity.
  - rewrite IH, <- app_assoc; reflexivity.
Qed.

Lemma finite_count_cdist target coords :
  finite_count (cdist target coords) = length coords.
Proof.
  unfold finite_count, cdist; induction coords as [| c cs IH]; simpl;
    [reflexivity | rewrite IH; reflexivity].
Qed.

Lemma nth_cdist target coords i :
  i < length coords ->
  nth i (cdist target coords) Inf = Fin (sqdist target (nth i coords (0, 0))).
Proof.
  intros Hi; unfold cdist.
  rewrite (nth_indep _ Inf (Fin (sqdist target (0, 0))))
    by (rewrite length_map; exact Hi).
  apply (map_nth (fun c => Fin (sqdist target c))).
Qed.

Lemma lex_cdist target coords i j :
  i < length coords -> j < length coords ->
  lex (cdist target coords) i j -> before target coords i j.
Proof.
  unfold lex, before; intros Hi Hj; rewrite !nth_cdist by assumption; simpl.
  rewrite Z.ltb_lt, Z.ltb_ge; lia.
Qed.

Lemma StronglySorted_NoDup_irrefl {A} (R : A -> A -> Prop) l :
  (forall x, ~ R x x) -> StronglySorted R l -> NoDup l.
Proof.
  intros Hirr; induction 1 as [| x l Hs IH Hall]; constructor; [| exact IH].
  intros Hin; rewrite Forall_forall in Hall; apply (Hirr x), Hall, Hin.
Qed.

Lemma StronglySorted_impl_In {A} (R S : A -> A -> Prop) l :
  (forall x y, In x l -> In y l -> R x y -> S x y) ->
  StronglySorted R l -> StronglySorted S l.
Proof.
  intros HRS Hs; induction Hs as [| x l Hs IH Hall]; constructor.
  - apply IH; intros a b Ha Hb; apply HRS; right; assumption.
  - rewrite Forall_forall in *; intros y Hy.
    apply HRS; [left; reflexivity | right; exact Hy | apply Hall, Hy].
Qed.

(** C7.  With at least 40 candidates of the class of the gap pixel,
    [get_extra_matrix_points] returns 41 coordinates: 40 distinct
    candidates in the order "nearer first, array order among equally near
    ones" (so in non-decreasing distance), each of them before every
    candidate left out in that order (so they are the 40 nearest), and the
    gap pixel's own coordinate last. *)
Theorem get_extra_matrix_points_nearest_40 :
  forall g draws gap_index extra_code,
    getitem (extra_matrix g) gap_index = Some extra_code ->
    40 <= length (same_class_coords g extra_code) ->
    let coords := same_class_coords g extra_code in
    exists idxs,
      get_extra_matrix_points g draws gap_index
      = Ok (Coords (map (fun k => nth k coords (0, 0)) idxs ++ [gap_index]))
      /\ length idxs = 40
      /\ length (map (fun k => nth k coords (0, 0)) idxs ++ [gap_index]) <= 41
      /\ NoDup idxs
      /\ (forall k, In k idxs -> k < length coords)
      /\ StronglySorted (before gap_index coords) idxs
      /\ StronglySorted
           (fun i j => Z.le (sqdist gap_index (nth i coords (0, 0)))
                            (sqdist gap_index (nth j coords (0, 0)))) idxs
      /\ (forall i j, In i idxs -> j < length coords -> ~ In j idxs ->
            before gap_index coords i j).
Proof.
  intros g draws gap_index extra_code Hcode H40 coords.
  set (ds := cdist gap_index coords).
  assert (Hlen : length ds = length coords)
    by (unfold ds, cdist; apply length_map).
  destruct (select_indices_spec 40 ds) as (Hl & Hin & Hsorted & Hrest).
  { unfold ds; rewrite finite_count_cdist; exact H40. }
  assert (Hrange : forall k, In k (select_indices 40 ds) -> k < length coords).
  { intros k Hk; rewrite <- Hlen; apply (Hin k Hk). }
  assert (Hbefore : StronglySorted (before gap_index coords)
                      (select_indices 40 ds)).
  { apply (StronglySorted_impl_In (lex ds)); [| exact Hsorted].
    intros x y Hx Hy; apply lex_cdist; auto. }
  exists (select_indices 40 ds).
  split.
  { unfold get_extra_matrix_points; rewrite Hcode.
    cbn [of_option bind]; fold coords.
    replace (length coords <? 40) with false
      by (symmetry; apply Nat.ltb_ge; exact H40).
    cbn [bind]; rewrite Nat.min_l by exact H40.
    rewrite select_loop_indices; reflexivity. }
  split; [exact Hl |].
  split; [rewrite length_app, length_map, Hl; simpl; lia |].
  split.
  { apply (StronglySorted_NoDup_irrefl (lex ds)); [| exact Hsorted].
    intros x [H | [_ H]]; [rewrite dist_ltb_irrefl in H; discriminate | lia]. }
  split; [exact Hrange |].
  split; [exact Hbefore |].
  split.
  { apply (StronglySorted_impl_In (before gap_index coords));
      [| exact Hbefore].
    intros x y _ _ [H | [H _]]; lia. }
  intros i j Hi Hj Hnot; apply lex_cdist; auto.
  apply Hrest; [exact Hi | rewrite Hlen; exact Hj | exact Hnot].
Qed.

(** C7 at the 7 x 7 run with one land-cover class: 48 candidates. *)
Lemma get_extra_matrix_points_nearest_40_witness :
  getitem (extra_matrix (processed lcc_run)) (3, 3) = Some seven
  /\ 40 <= length (same_class_coords (processed lcc_run) seven)
  /\ exists idxs,
       get_extra_matrix_points (processed lcc_run) [] (3, 3)
       = Ok (Coords (map (fun k => nth k (same_class_coords
                                            (processed lcc_run) seven) (0, 0))
                         idxs ++ [(3, 3)]))
       /\ length idxs = 40.
Proof.
  assert (H1 : getitem (extra_matrix (processed lcc_run)) (3, 3) = Some seven)
    by (vm_compute; reflexivity).
  assert (H2 : 40 <= length (same_class_coords (processed lcc_run) seven))
    by (vm_compute; repeat constructor).
  split; [exact H1 | split; [exact H2 |]].
  destruct (get_extra_matrix_points_nearest_40 (processed lcc_run) []
              (3, 3) seven H1 H2) as (idxs & H & Hl & _).
  exists idxs; split; [exact H | exact Hl].
Defined.

(** ** interpolation *)

Lemma combine_app_same {A B} (l1 l2 : list A) (f1 f2 : list B) :
  length l1 = length f1 ->
  combine (l1 ++ l2) (f1 ++ f2) = combine l1 f1 ++ combine l2 f2.
Proof.
  revert f1; induction l1 as [| a l1 IH]; intros [| b f1]; simpl; intros H;
    try discriminate; [reflexivity |].
  f_equal; apply IH; lia.
Qed.

Lemma scatter_row_In p i j row a b v :
  In ((a, b), v) (combine (where_row p i j row) (filter p row)) <->
  a = i /\ exists k, b = j + k /\ nth_error row k = Some v /\ p v = true.
Proof.
  revert j; induction row as [| w row IH]; intros j; simpl.
  - split; [intros [] | intros (_ & [| k] & _ & H & _); discriminate].
  - assert (Htail :
      In ((a, b), v) (combine (where_row p i (S j) row) (filter p row)) <->
      a = i /\ exists k, b = j + S k /\ nth_error row k = Some v
                         /\ p v = true).
    { rewrite IH; split; intros (Ha & k & Hb & Hk & Hp); split; trivial;
        exists k; repeat split; trivial; lia. }
    destruct (p w) eqn:Hpw; simpl; rewrite Htail; split.
    + intros [H | (Ha & k & Hb & Hk & Hp)].
      * injection H as <- <- <-; split; [reflexivity |].
        exists 0; repeat split; trivial; lia.
      * split; [exact Ha | exists (S k); repeat split; trivial].
    + intros (Ha & [| k] & Hb & Hk & Hp); simpl in Hk.
      * left; injection Hk as <-; subst; do 2 f_equal; lia.
      * right; split; [exact Ha | exists k; repeat split; trivial].
    + intros (Ha & k & Hb & Hk & Hp).
      split; [exact Ha | exists (S k); repeat split; trivial].
    + intros (Ha & [| k] & Hb & Hk & Hp); simpl in Hk.
      * injection Hk as <-; congruence.
      * split; [exact Ha | exists k; repeat split; trivial].
Qed.

Lemma scatter_from_In p i m a b v :
  In ((a, b), v) (combine (argwhere_from p i m) (filter p (concat m))) <->
  exists k row, a = i + k /\ nth_error m k = Some row
                /\ nth_error row b = Some v /\ p v = true.
Proof.
  revert i; induction m as [| row m IH]; intros i; simpl.
  - split; [intros [] | intros ([| k] & r & _ & H & _); discriminate].
  - rewrite filter_app, combine_app_same by apply where_row_length.
    rewrite in_app_iff, scatter_row_In, IH; split.
    + intros [(Ha & k & Hb & Hk & Hp) | (k & r & Ha & Hk & Hb & Hp)].
      * exists 0, row; simpl in Hb; subst; repeat split; trivial; lia.
      * exists (S k), r; repeat split; trivial; lia.
    + intros ([| k] & r & Ha & Hk & Hb & Hp); simpl in Hk.
      * injection Hk as <-; left; split; [lia |].
        exists b; repeat split; trivial.
      * right; exists k, r; repeat split; trivial; lia.
Qed.

(** The scatter handed to SciPy holds exactly the pixels that have a
    value. *)
Lemma known_scatter_In m c v :
  In (c, v) (known_scatter m) <-> getitem m c = Some v /\ isnan v = false.
Proof.
  destruct c as [a b]; unfold known_scatter, argwhere, getitem; simpl.
  rewrite scatter_from_In; split.
  - intros (k & row & Ha & Hk & Hb & Hp); simpl in Ha; subst k.
    rewrite Hk; split; [exact Hb |].
    apply negb_true_iff; exact Hp.
  - intros (H & Hp); destruct (nth_error m a) as [row |] eqn:Hrow;
      [| discriminate].
    exists a, row; repeat split; trivial.
    apply negb_true_iff; exact Hp.
Qed.

Lemma known_scatter_length m :
  length (known_scatter m) = count_where (fun v => negb (isnan v)) m.
Proof.
  unfold known_scatter; rewrite length_combine, argwhere_length.
  unfold count_where; apply Nat.min_id.
Qed.

Lemma nearest_from_spec xi pts : forall best,
  exists q, In q (best :: pts)
            /\ nearest_from xi pts best = snd q
            /\ forall q', In q' (best :: pts) ->
                 (sqdist xi (fst q) <= sqdist xi (fst q'))%Z.
Proof.
  induction pts as [| p pts IH]; intros best; simpl.
  - exists best; split; [left; reflexivity |].
    split; [reflexivity |].
    intros q' [<- | []]; lia.
  - destruct (sqdist xi (fst p) <? sqdist xi (fst best))%Z eqn:E.
    + apply Z.ltb_lt in E.
      destruct (IH p) as (q & Hq & Hv & Hmin).
      exists q; split; [right; exact Hq |].
      split; [exact Hv |].
      intros q' [<- | Hq'].
      * specialize (Hmin p (or_introl eq_refl)); lia.
      * apply Hmin; exact Hq'.
    + apply Z.ltb_ge in E.
      destruct (IH best) as (q & Hq & Hv & Hmin).
      exists q; split.
      { destruct Hq as [<- | Hq]; [left | right; right]; trivial. }
      split; [exact Hv |].
      intros q' [<- | [<- | Hq']].
      * apply Hmin; left; reflexivity.
      * specialize (Hmin best (or_introl eq_refl)); lia.
      * apply Hmin; right; exact Hq'.
Qed.

Lemma count_where_none p m :
  count_where p m = 0 -> forall v, In v (concat m) -> p v = false.
Proof.
  unfold count_where; intros H v Hv.
  destruct (p v) eqn:E; [| reflexivity].
  assert (Hin : In v (filter p (concat m))) by (apply filter_In; auto).
  destruct (filter p (concat m)); [destruct Hin | discriminate].
Qed.

Lemma filter_negb_length {A} (p : A -> bool) l :
  length (filter p l) + length (filter (fun x => negb (p x)) l) = length l.
Proof.
  induction l as [| x l IH]; simpl; [reflexivity |].
  destruct (p x); simpl; lia.
Qed.

Lemma getitem_In m c v : getitem m c = Some v -> In v (concat m).
Proof.
  unfold getitem; destruct (nth_error m (fst c)) as [row |] eqn:Hrow;
    [| discriminate].
  intros H; apply in_concat; exists row; split.
  - apply (nth_error_In _ _ Hrow).
  - apply (nth_error_In _ _ H).
Qed.

Lemma getitem_map f m c :
  getitem (map (map f) m) c = option_map f (getitem m c).
Proof.
  unfold getitem; rewrite nth_error_map.
  destruct (nth_error m (fst c)) as [row |]; simpl; [| reflexivity].
  apply nth_error_map.
Qed.

(** Without NaN in the Target Matrix, the number that [interpolation]
    compares with 10 is the number of usable known values. *)
Lemma usable_known_sentinel g :
  gap_value g = minus100 ->
  count_where isnan (temp_gap_array g) = 0 ->
  (Z.of_nat (size (temp_gap_array g))
   - Z.of_nat (count_where (fun v => val_eqb v minus100) (temp_gap_array g))
   + Z.of_nat (count_where isnan (temp_gap_array g)))%Z
  = Z.of_nat (usable_known g)
  /\ count_where (fun v => negb (isnan v))
       (map (map (fun v => if val_eqb v (gap_value g) then NaN else v))
            (temp_gap_array g))
     = usable_known g.
Proof.
  intros Hg Hnan; pose proof (count_where_none _ _ Hnan) as Hno.
  unfold usable_known; rewrite Hg, Hnan.
  assert (Hu : count_where (fun v => negb (isnan v || val_eqb v minus100))
                 (temp_gap_array g)
               = count_where (fun v => negb (val_eqb v minus100))
                   (temp_gap_array g)).
  { unfold count_where; f_equal; apply filter_ext_in.
    intros v Hv; rewrite (Hno v Hv); reflexivity. }
  rewrite Hu; split.
  - pose proof (filter_negb_length (fun v => val_eqb v minus100)
                  (concat (temp_gap_array g))) as H.
    unfold count_where, size; lia.
  - unfold count_where; rewrite <- concat_map, filter_map_swap, length_map.
    f_equal; apply filter_ext_in.
    intros v Hv; unfold Basics.compose.
    destruct (val_eqb v minus100); [reflexivity |].
    rewrite (Hno v Hv); reflexivity.
Qed.

(** C4, as amended.  Artificial gaps (marker -100) and a Target Matrix
    without NaN: [interpolation] gives no result exactly when at most 10
    usable known values are left once the marker is masked, and otherwise it
    returns the value of a known pixel than which no known pixel is nearer
    to the gap coordinate. *)
Theorem interpolation_sentinel_threshold :
  forall g gap_index,
    gap_value g = minus100 ->
    count_where isnan (temp_gap_array g) = 0 ->
    (interpolation g gap_index = Ok PNone <-> usable_known g <= 10)
    /\ (10 < usable_known g ->
        exists c v,
          interpolation g gap_index = Ok (PFloat v)
          /\ getitem (temp_gap_array g) c = Some v
          /\ val_eqb v minus100 = false
          /\ forall c' v',
               getitem (temp_gap_array g) c' = Some v' ->
               val_eqb v' minus100 = false ->
               (sqdist gap_index c <= sqdist gap_index c')%Z).
Proof.
  intros g gap_index Hg Hnan.
  destruct (usable_known_sentinel g Hg Hnan) as (Hcount & Hknown).
  pose proof (count_where_none _ _ Hnan) as Hno.
  unfold interpolation; rewrite Hcount.
  set (copy_matrix :=
         map (map (fun v => if val_eqb v (gap_value g) then NaN else v))
             (temp_gap_array g)) in *.
  destruct (Z.of_nat (usable_known g) <=? 10)%Z eqn:E.
  - apply Z.leb_le in E; split; [split; [lia | reflexivity] | lia].
  - apply Z.leb_gt in E.
    assert (Hlen : length (known_scatter copy_matrix) = usable_known g)
      by (rewrite known_scatter_length; exact Hknown).
    destruct (known_scatter copy_matrix) as [| p pts] eqn:Hpts;
      [simpl in Hlen; lia |].
    simpl; split; [split; [discriminate | lia] | intros _].
    destruct (nearest_from_spec gap_index pts p) as ([c v] & Hq & Hv & Hmin).
    rewrite <- Hpts in Hq.
    apply known_scatter_In in Hq as (Hc & Hvn).
    unfold copy_matrix in Hc; rewrite getitem_map in Hc.
    destruct (getitem (temp_gap_array g) c) as [v0 |] eqn:Hv0;
      [| discriminate].
    simpl in Hc; rewrite Hg in Hc.
    destruct (val_eqb v0 minus100) eqn:Hv0g;
      injection Hc as <-; [discriminate |].
    exists c, v0; split; [rewrite Hv; reflexivity |].
    split; [exact Hv0 | split; [exact Hv0g |]].
    intros c' v' Hc' Hv'.
    apply (Hmin (c', v')); rewrite <- Hpts; apply known_scatter_In.
    split.
    + unfold copy_matrix; rewrite getitem_map, Hc', Hg; simpl.
      rewrite Hv'; reflexivity.
    + apply Hno, (getitem_In _ _ _ Hc').
Qed.

(** C4, as amended, at the run with 15 known pixels. *)
Lemma interpolation_sentinel_threshold_witness :
  gap_value (processed fifteen_known_run) = minus100
  /\ count_where isnan (temp_gap_array (processed fifteen_known_run)) = 0
  /\ (interpolation (processed fifteen_known_run) (0, 0) = Ok PNone
      <-> usable_known (processed fifteen_known_run) <= 10).
Proof.
  assert (H1 : gap_value (processed fifteen_known_run) = minus100)
    by reflexivity.
  assert (H2 : count_where isnan
                 (temp_gap_array (processed fifteen_known_run)) = 0)
    by reflexivity.
  split; [exact H1 | split; [exact H2 |]].
  apply (interpolation_sentinel_threshold
           (processed fifteen_known_run) (0, 0) H1 H2).
Defined.

(** C4, counterexample.  Artificial gaps, exactly 10 usable known values:
    [interpolation] gives no result although the known values are not
    fewer than 10. *)
Lemma interpolation_no_result_at_10 :
  interpolation (processed ten_known_run) (0, 0) = Ok PNone
  /\ ~ usable_known (processed ten_known_run) < 10.
Proof.
  split; [vm_compute; reflexivity |].
  intros H; vm_compute in H; lia.
Qed.

(** ** The feature table *)

Lemma column_of_length g c col :
  column_of g c = Ok col -> length col = S (length (training_data g)).
Proof.
  unfold column_of; intros H.
  apply bind_Ok in H as (history & Hh & H).
  apply bind_Ok in H as (target & _ & H); injection H as <-.
  rewrite length_app; simpl.
  destruct (training_data g) as [| t ts] eqn:Ht; [discriminate |].
  apply mapM_Ok_length in Hh; rewrite Hh; simpl; lia.
Qed.

Lemma map_fst_combine_same {A B} (l : list A) (l' : list B) :
  length l = length l' -> map fst (combine l l') = l.
Proof.
  revert l'; induction l as [| a l IH]; intros [| b l']; simpl; intros H;
    try discriminate; [reflexivity |].
  f_equal; apply IH; lia.
Qed.

Lemma create_dataframe_shape g coords df :
  create_dataframe g coords = Ok df ->
  labelled df /\ rect (S (length (training_data g))) df.
Proof.
  unfold create_dataframe; intros H.
  apply bind_Ok in H as (cols & Hcols & H); injection H as <-.
  pose proof (mapM_Ok_length _ _ _ Hcols) as Hlen.
  assert (Hl : length (map LInt (seq 0 (length coords))) = length cols)
    by (rewrite length_map, length_seq; lia).
  split.
  - unfold labelled; rewrite map_fst_combine_same by exact Hl.
    rewrite length_combine, Hl, Nat.min_id, Hlen; reflexivity.
  - intros [l col] Hc; simpl.
    apply in_combine_r in Hc.
    apply (mapM_Ok_Forall (column_of g)
             (fun col => length col = S (length (training_data g))))
      in Hcols.
    + rewrite Forall_forall in Hcols; apply Hcols, Hc.
    + intros c b _; apply column_of_length.
Qed.

Lemma replace_shape old new df k :
  labelled df -> rect k df ->
  labelled (replace old new df) /\ rect k (replace old new df).
Proof.
  unfold labelled, rect, replace; intros Hl Hr; split.
  - rewrite map_map, length_map; simpl; exact Hl.
  - intros c Hc; apply in_map_iff in Hc as (c0 & <- & Hc0); simpl.
    rewrite length_map; apply Hr, Hc0.
Qed.

Lemma take_rows_shape rs df :
  labelled df ->
  labelled (take_rows rs df) /\ rect (length rs) (take_rows rs df).
Proof.
  unfold labelled, rect, take_rows; intros Hl; split.
  - rewrite map_map, length_map; simpl; exact Hl.
  - intros c Hc; apply in_map_iff in Hc as (c0 & <- & Hc0); simpl.
    apply length_map.
Qed.

Lemma row_at_take_rows rs df r :
  r < length rs -> row_at (take_rows rs df) r = row_at df (nth r rs 0).
Proof.
  intros Hr; unfold row_at, take_rows; rewrite map_map; simpl.
  apply map_ext; intros c.
  rewrite (nth_indep _ NaN (nth 0 (snd c) NaN))
    by (rewrite length_map; exact Hr).
  apply (map_nth (fun r' => nth r' (snd c) NaN) rs 0 r).
Qed.

Lemma nrows_take_rows rs df : nrows (take_rows rs df) <= length rs.
Proof.
  destruct df as [| c df]; simpl; [lia | rewrite length_map; lia].
Qed.

(** After [dropna(how='all')] every row has a value. *)
Lemma dropna_all_rows df r :
  r < nrows (dropna_all df) ->
  forallb isnan (row_at (dropna_all df) r) = false.
Proof.
  unfold dropna_all; intros Hr.
  set (rs := filter (fun r => negb (forallb isnan (row_at df r)))
                    (seq 0 (nrows df))) in *.
  assert (Hlt : r < length rs)
    by (pose proof (nrows_take_rows rs df); lia).
  rewrite row_at_take_rows by exact Hlt.
  assert (Hin : In (nth r rs 0) rs) by (apply nth_In; exact Hlt).
  apply filter_In in Hin as (_ & Hkeep).
  apply negb_true_iff; exact Hkeep.
Qed.

Lemma positions_from_In p k l i :
  In i (positions_from p k l) <->
  exists j v, i = k + j /\ nth_error l j = Some v /\ p v = true.
Proof.
  revert k; induction l as [| w l IH]; intros k; simpl.
  - split; [intros [] | intros ([| j] & v & _ & H & _); discriminate].
  - assert (Htail : In i (positions_from p (S k) l) <->
              exists j v, i = k + S j /\ nth_error l j = Some v
                          /\ p v = true).
    { rewrite IH; split; intros (j & v & Hi & Hj & Hp); exists j, v;
        repeat split; trivial; lia. }
    destruct (p w) eqn:Hpw; simpl; rewrite Htail; split.
    + intros [<- | (j & v & Hi & Hj & Hp)].
      * exists 0, w; repeat split; trivial; lia.
      * exists (S j), v; repeat split; trivial.
    + intros ([| j] & v & Hi & Hj & Hp); simpl in Hj.
      * left; lia.
      * right; exists j, v; repeat split; trivial.
    + intros (j & v & Hi & Hj & Hp); exists (S j), v; repeat split; trivial.
    + intros ([| j] & v & Hi & Hj & Hp); simpl in Hj.
      * injection Hj as <-; congruence.
      * exists j, v; repeat split; trivial.
Qed.

Lemma positions_from_NoDup p k l : NoDup (positions_from p k l).
Proof.
  revert k; induction l as [| w l IH]; intros k; simpl; [constructor |].
  destruct (p w); [| apply IH].
  constructor; [| apply IH].
  rewrite positions_from_In; intros (j & v & Hi & _); lia.
Qed.

Lemma existsb_label_LInt i drops :
  existsb (label_eqb (LInt i)) (map LInt drops) = true <-> In i drops.
Proof.
  rewrite existsb_exists; split.
  - intros (l & Hl & He); apply in_map_iff in Hl as (j & <- & Hj).
    simpl in He; apply Nat.eqb_eq in He; subst; exact Hj.
  - intros Hi; exists (LInt i); split; [apply in_map, Hi |].
    simpl; apply Nat.eqb_refl.
Qed.

Lemma filter_filter_and {A} (f g : A -> bool) l :
  filter f (filter g l) = filter (fun x => g x && f x) l.
Proof.
  induction l as [| x l IH]; simpl; [reflexivity |].
  destruct (g x) eqn:Eg; simpl; [destruct (f x) |]; rewrite IH; reflexivity.
Qed.

Lemma filter_all {A} (f : A -> bool) l :
  (forall x, In x l -> f x = true) -> filter f l = l.
Proof.
  induction l as [| x l IH]; simpl; intros H; [reflexivity |].
  rewrite (H x (or_introl eq_refl)); f_equal.
  apply IH; intros y Hy; apply H; right; exact Hy.
Qed.

(** Dropping by label the columns [drops], one after the other, removes
    exactly these columns when each label is there. *)
Lemma fold_drop drops : forall df,
  NoDup drops ->
  (forall i, In i drops -> exists c, In c df /\ fst c = LInt i) ->
  fold_left (fun acc i => d <- acc ;; drop (LInt i) d) drops (Ok df)
  = Ok (filter (kept drops) df).
Proof.
  induction drops as [| i drops IH]; intros df Hnd Hlab; simpl.
  - rewrite filter_all; [reflexivity | intros; reflexivity].
  - apply NoDup_cons_iff in Hnd as (Hni & Hnd).
    unfold drop at 2.
    replace (existsb (fun c => label_eqb (fst c) (LInt i)) df) with true.
    2:{ symmetry; apply existsb_exists.
        destruct (Hlab i (or_introl eq_refl)) as (c & Hc & Hf).
        exists c; split; [exact Hc |].
        rewrite Hf; simpl; apply Nat.eqb_refl. }
    rewrite IH; [| exact Hnd |].
    + rewrite filter_filter_and; f_equal; apply filter_ext.
      intros c; unfold kept; simpl.
      rewrite negb_orb; reflexivity.
    + intros j Hj; destruct (Hlab j (or_intror Hj)) as (c & Hc & Hf).
      exists c; split; [| exact Hf].
      apply filter_In; split; [exact Hc |].
      rewrite Hf; simpl; apply negb_true_iff, Nat.eqb_neq.
      intros ->; contradiction.
Qed.

Lemma labelled_nth_error df i c :
  labelled df -> nth_error df i = Some c -> fst c = LInt i.
Proof.
  unfold labelled; intros Hl Hc.
  assert (H : nth_error (map fst df) i = Some (fst c))
    by (rewrite nth_error_map, Hc; reflexivity).
  rewrite Hl, nth_error_map, nth_error_seq in H.
  destruct (i <? length df); simpl in H; [| discriminate].
  injection H as <-; reflexivity.
Qed.

Lemma last_slice_last {A} (l : list A) d :
  l <> [] -> last_slice l = [last l d].
Proof.
  intros Hl; destruct (exists_last Hl) as (l' & a & ->).
  unfold last_slice; rewrite rev_unit, last_last; reflexivity.
Qed.

Lemma last_slice_nil {A} (l : list A) : length l = 0 -> last_slice l = [].
Proof. destruct l; [reflexivity | discriminate]. Qed.

Lemma concat_map_singleton {A B} (f : A -> B) l :
  concat (map (fun x => [f x]) l) = map f l.
Proof. induction l as [| x l IH]; simpl; [| rewrite IH]; reflexivity. Qed.

Lemma concat_map_nil {A B} (l : list A) :
  concat (map (fun _ => @nil B) l) = [].
Proof. induction l as [| x l IH]; simpl; trivial. Qed.

Lemma last_row_nth_error init k i c v :
  rect k init ->
  nth_error init i = Some c -> In v (last_slice (snd c)) ->
  nth_error (concat (map (fun c => last_slice (snd c)) init)) i = Some v.
Proof.
  intros Hr Hc Hv.
  assert (Hk : length (snd c) = k) by (apply Hr, (nth_error_In _ _ Hc)).
  destruct k as [| k].
  - rewrite (last_slice_nil (snd c) Hk) in Hv; destruct Hv.
  - assert (Hne : forall c', In c' init -> snd c' <> []).
    { intros c' Hc' E; pose proof (Hr c' Hc') as H; rewrite E in H.
      discriminate. }
    rewrite (map_ext_in _ (fun c => [last (snd c) NaN])).
    + rewrite concat_map_singleton, nth_error_map, Hc; simpl.
      rewrite (last_slice_last (snd c) NaN) in Hv
        by (apply Hne, (nth_error_In _ _ Hc)).
      destruct Hv as [<- | []]; reflexivity.
    + intros c' Hc'; apply last_slice_last, Hne, Hc'.
Qed.

Lemma last_row_length (init : DataFrame) :
  length (concat (map (fun c => last_slice (snd c)) init)) <= length init.
Proof.
  induction init as [| c init IH]; simpl; [lia |].
  rewrite length_app; unfold last_slice at 1.
  destruct (rev (snd c)); simpl; lia.
Qed.

(** [preprocess_dataframe] on a frame with range labels and columns of one
    length: no label is missing when it is dropped, and afterwards no
    column but the last is missing in the last row. *)
Lemma preprocess_dataframe_spec df k :
  labelled df -> rect k df ->
  exists drops,
    preprocess_dataframe df = Ok (filter (kept drops) df)
    /\ forall c v, In c (but_last (filter (kept drops) df)) ->
                   In v (last_slice (snd c)) -> isnan v = false.
Proof.
  intros Hl Hr.
  destruct df as [| c0 df0] eqn:Hdf.
  { exists []; split; [reflexivity | intros c v []]. }
  assert (Hne : df <> []) by (rewrite Hdf; discriminate).
  rewrite <- Hdf in *; clear Hdf c0 df0.
  destruct (exists_last Hne) as (init & lc & Hshape).
  assert (Hin_init : forall c, In c init -> In c df)
    by (intros c Hc; rewrite Hshape; apply in_or_app; left; exact Hc).
  assert (Hnth_init : forall i c, nth_error init i = Some c ->
                                  nth_error df i = Some c).
  { intros i c Hc; rewrite Hshape, nth_error_app1; [exact Hc |].
    apply nth_error_Some; rewrite Hc; discriminate. }
  unfold preprocess_dataframe.
  replace (but_last df) with init
    by (rewrite Hshape; symmetry; apply removelast_last).
  set (last_row := concat (map (fun c => last_slice (snd c)) init)).
  set (drops := positions_from isnan 0 last_row).
  exists drops.
  assert (Hshort : forall i, In i drops -> i < length init).
  { intros i Hi; apply positions_from_In in Hi as (j & v & -> & Hj & _).
    assert (j < length last_row)
      by (apply nth_error_Some; rewrite Hj; discriminate).
    pose proof (last_row_length init); fold last_row in H0; simpl; lia. }
  assert (Hfold :
    fold_left (fun acc i => d <- acc ;; drop (LInt i) d) drops (Ok df)
    = Ok (filter (kept drops) df)).
  { apply fold_drop; [apply positions_from_NoDup |].
    intros i Hi; pose proof (Hshort i Hi) as Hlt.
    destruct (nth_error init i) as [c |] eqn:Hc.
    - exists c; split; [apply Hin_init, (nth_error_In _ _ Hc) |].
      apply (labelled_nth_error df i c Hl), Hnth_init, Hc.
    - apply nth_error_None in Hc; lia. }
  split.
  { destruct drops as [| d drops'] eqn:Hd.
    - rewrite filter_all; [reflexivity | intros; reflexivity].
    - rewrite Hfold; reflexivity. }
  assert (Hlast : kept drops lc = true).
  { unfold kept.
    rewrite (labelled_nth_error df (length init) lc Hl)
      by (rewrite Hshape, nth_error_app2, Nat.sub_diag by lia; reflexivity).
    apply negb_true_iff.
    destruct (existsb (label_eqb (LInt (length init))) (map LInt drops))
      eqn:E; [| reflexivity].
    apply existsb_label_LInt, Hshort in E; lia. }
  intros c v Hc Hv.
  rewrite Hshape, filter_app in Hc; simpl in Hc; rewrite Hlast in Hc.
  unfold but_last in Hc; rewrite removelast_last in Hc.
  apply filter_In in Hc as (Hc & Hkept).
  apply In_nth_error in Hc as (i & Hi).
  destruct (isnan v) eqn:Hnan; [exfalso | reflexivity].
  assert (Hdrop : In i drops).
  { apply positions_from_In; exists i, v; repeat split; trivial.
    apply (last_row_nth_error init k i c v); trivial.
    intros c' Hc'; apply Hr, Hin_init, Hc'. }
  unfold kept in Hkept.
  rewrite (labelled_nth_error df i c Hl (Hnth_init i c Hi)) in Hkept.
  apply negb_true_iff in Hkept.
  apply existsb_label_LInt in Hdrop; congruence.
Qed.

(** C8, as amended.  When the selected coordinates lie in the arrays, the
    feature table is built without an exception; every row that
    [dropna(how='all')] leaves has a value in some column; preprocessing
    then only removes columns, and in its result no column other than the
    last one (the gap pixel's own) is missing in the last row. *)
Theorem feature_table_clean :
  forall g coords created,
    create_dataframe g coords = Ok created ->
    let built := dropna_all (replace minus100 NaN created) in
    exists df,
      feature_table g coords = Ok df
      /\ (forall r, r < nrows built ->
                    forallb isnan (row_at built r) = false)
      /\ incl df built
      /\ (forall c v, In c (but_last df) -> In v (last_slice (snd c)) ->
                      isnan v = false).
Proof.
  intros g coords created Hcreate built.
  destruct (create_dataframe_shape g coords created Hcreate) as (Hl & Hr).
  destruct (replace_shape minus100 NaN created _ Hl Hr) as (Hl1 & _).
  destruct (take_rows_shape
              (filter (fun r => negb (forallb isnan
                         (row_at (replace minus100 NaN created) r)))
                      (seq 0 (nrows (replace minus100 NaN created))))
              (replace minus100 NaN created) Hl1) as (Hl2 & Hr2).
  fold (dropna_all (replace minus100 NaN created)) in Hl2, Hr2.
  fold built in Hl2, Hr2.
  destruct (preprocess_dataframe_spec built _ Hl2 Hr2) as (drops & Hp & Hb).
  exists (filter (kept drops) built).
  split; [unfold feature_table; rewrite Hcreate; exact Hp |].
  split; [intros r Hrow; apply dropna_all_rows; exact Hrow |].
  split; [apply incl_filter | exact Hb].
Qed.

(** C8, as amended, at the run with a cloudy predictor pixel. *)
Lemma feature_table_clean_witness :
  create_dataframe (processed cloudy_run) cloudy_coords
  = Ok [(LInt 0, [Num 5%Q; NaN]); (LInt 1, [NaN; seven]);
        (LInt 2, [NaN; minus100])]
  /\ exists df,
       feature_table (processed cloudy_run) cloudy_coords = Ok df
       /\ (forall c v, In c (but_last df) -> In v (last_slice (snd c)) ->
                       isnan v = false).
Proof.
  assert (H : create_dataframe (processed cloudy_run) cloudy_coords
              = Ok [(LInt 0, [Num 5%Q; NaN]); (LInt 1, [NaN; seven]);
                    (LInt 2, [NaN; minus100])])
    by (vm_compute; reflexivity).
  split; [exact H |].
  destruct (feature_table_clean (processed cloudy_run) cloudy_coords _ H)
    as (df & Hdf & _ & _ & Hb).
  exists df; split; [exact Hdf | exact Hb].
Defined.

(** C8, counterexample.  Artificial gaps, a predictor pixel that is NaN
    in the Target Matrix and a historical image with a value at that pixel
    only: in the table that [pixel_model] hands on, row 0 is missing
    everywhere, the last column is missing in the target row, and the labels
    are the integers 1 and 2, not the strings "0" and "1". *)
Lemma feature_table_not_clean :
  exists df,
    feature_table (processed cloudy_run) cloudy_coords = Ok df
    /\ df = [(LInt 1, [NaN; seven]); (LInt 2, [NaN; NaN])]
    /\ ~ claimed_clean df.
Proof.
  eexists; split; [vm_compute; reflexivity |].
  split; [reflexivity |].
  intros (Hrows & _ & _).
  specialize (Hrows 0); simpl in Hrows.
  assert (H : true = false) by (apply Hrows; lia).
  discriminate.
Qed.

(** ** train_model and pixel_model *)

Section LearningFacts.

Variable estimator : Type.
Variable scale : list (list value) -> result (list (list value)).
Variable cross_val_score :
  list (list value) -> list value -> result (list value).
Variable fit : list (list value) -> list value -> result estimator.
Variable predict : estimator -> list (list value) -> result (list value).
Variable randomized_search :
  list (list value) -> list value -> result (estimator * value).
Variable grid_search :
  list (list value) -> list value -> result (estimator * value).

Local Notation "'train'" :=
  (train_model scale cross_val_score fit predict randomized_search
               grid_search).
Local Notation "'model'" :=
  (pixel_model scale cross_val_score fit predict randomized_search
               grid_search).

(** With hyperparameters 'Custom' the validation score that [train_model]
    returns is the array of fold scores as [cross_val_score] gave it. *)
Lemma train_model_custom g X_train y_train X_test sample scores fitted
  predicted :
  learning_function g = "SVR"%string ->
  hyperparameters g = "Custom"%string ->
  scale (X_train ++ X_test) = Ok sample ->
  cross_val_score (but_last sample) (concat y_train) = Ok scores ->
  fit (but_last sample) (concat y_train) = Ok fitted ->
  predict fitted (last_slice sample) = Ok predicted ->
  train g X_train y_train X_test = Ok (PArray predicted, PArray scores).
Proof.
  intros Hlf Hhp Hs Hcv Hfit Hp; unfold train_model.
  rewrite Hlf, Hhp, Hs; simpl; rewrite Hcv, Hfit; simpl; rewrite Hp.
  reflexivity.
Qed.

(** When the cross-validation raises, [train_model] returns
    [(None, None)]. *)
Lemma train_model_custom_cv_raises g X_train y_train X_test sample e :
  learning_function g = "SVR"%string ->
  hyperparameters g = "Custom"%string ->
  scale (X_train ++ X_test) = Ok sample ->
  cross_val_score (but_last sample) (concat y_train) = Raise e ->
  train g X_train y_train X_test = Ok (PNone, PNone).
Proof.
  intros Hlf Hhp Hs Hcv; unfold train_model.
  rewrite Hlf, Hhp, Hs; simpl; rewrite Hcv; reflexivity.
Qed.

Lemma interpolation_shape g gap_index p :
  interpolation g gap_index = Ok p ->
  p = PNone \/ exists v, p = PFloat v.
Proof.
  unfold interpolation.
  destruct (_ <=? 10)%Z; [intros H; injection H as <-; left; reflexivity |].
  unfold griddata_nearest; destruct (known_scatter _);
    intros H; injection H as <-; right; eexists; reflexivity.
Qed.

Lemma item_shape p q : item p = Ok q -> exists v, q = PFloat v.
Proof.
  destruct p as [| v | [| v [| w vs]] | s]; simpl; intros H;
    try discriminate; injection H as <-; eexists; reflexivity.
Qed.

(** Every Gap Result carries the coordinate it was asked for, and its
    prediction is a float or [None]. *)
Lemma pixel_model_result g draws gap_index r :
  model g draws gap_index = Ok r ->
  gr_index r = gap_index
  /\ (gr_prediction r = PNone \/ exists v, gr_prediction r = PFloat v).
Proof.
  unfold pixel_model; intros H.
  apply bind_Ok in H as ([cs | s] & _ & H).
  - apply bind_Ok in H as (df & _ & H).
    destruct (get_train_test_sets df) as [[X_train y_train] X_test].
    apply bind_Ok in H as (pv & _ & H).
    apply bind_Ok in H as (pv' & Hpv' & H).
    apply bind_Ok in H as (a & _ & H); injection H as <-.
    split; [reflexivity |]; unfold gr_prediction; simpl.
    destruct (fst pv) eqn:Hp.
    1: apply bind_Ok in Hpv' as (p & Hi & Hpv'); injection Hpv' as <-;
       simpl; apply (interpolation_shape _ _ _ Hi).
    all: apply bind_Ok in Hpv' as (p & Hi & Hpv'); injection Hpv' as <-;
       simpl; right; apply (item_shape _ _ Hi).
  - apply bind_Ok in H as (p & Hi & H).
    apply bind_Ok in H as (a & _ & H); injection H as <-.
    split; [reflexivity |]; unfold gr_prediction; simpl.
    apply (interpolation_shape _ _ _ Hi).
Qed.

Lemma getitem_setitem m c v m' :
  setitem m c v = Some m' ->
  forall c', getitem m' c' = if coord_eqb c' c then Some v
                             else getitem m c'.
Proof.
  destruct c as [a b]; unfold setitem; simpl.
  destruct (nth_error m a) as [row |] eqn:Hrow; [| discriminate].
  destruct (b <? length row) eqn:Hb; [| discriminate].
  apply Nat.ltb_lt in Hb; intros H [a' b']; injection H as <-.
  assert (Ha : a < length m)
    by (apply nth_error_Some; rewrite Hrow; discriminate).
  unfold getitem, coord_eqb; simpl.
  destruct (Nat.eqb_spec a' a) as [-> | Hne]; simpl.
  - rewrite nth_error_set_nth_eq by exact Ha.
    destruct (Nat.eqb_spec b' b) as [-> | Hnb].
    + apply nth_error_set_nth_eq; exact Hb.
    + rewrite nth_error_set_nth_neq, Hrow by exact Hnb; reflexivity.
  - rewrite nth_error_set_nth_neq by exact Hne; reflexivity.
Qed.

Lemma assign_in_range m c p :
  (exists v, getitem m c = Some v) ->
  p = PNone \/ (exists v, p = PFloat v) ->
  exists m', assign m c p = Ok m'
             /\ forall c', (exists v, getitem m c' = Some v) ->
                           exists v, getitem m' c' = Some v.
Proof.
  intros (v0 & Hv0) Hp.
  assert (Hset : forall v, exists m', setitem m c v = Some m').
  { intros v; unfold setitem, getitem in *.
    destruct (nth_error m (fst c)) as [row |]; [| discriminate].
    assert (Hlt : snd c < length row)
      by (apply nth_error_Some; rewrite Hv0; discriminate).
    apply Nat.ltb_lt in Hlt; rewrite Hlt; eexists; reflexivity. }
  assert (Hkeep : forall v m', setitem m c v = Some m' ->
            forall c', (exists w, getitem m c' = Some w) ->
                       exists w, getitem m' c' = Some w).
  { intros v m' Hm' c' Hc'; rewrite (getitem_setitem _ _ _ _ Hm').
    destruct (coord_eqb c' c); [eexists; reflexivity | exact Hc']. }
  destruct Hp as [-> | (v & ->)]; simpl.
  - destruct (Hset NaN) as (m' & Hm'); exists m'; rewrite Hm'.
    split; [reflexivity | apply (Hkeep _ _ Hm')].
  - destruct (Hset v) as (m' & Hm'); exists m'; rewrite Hm'.
    split; [reflexivity | apply (Hkeep _ _ Hm')].
Qed.

Lemma reduce_results_total results : forall filled actual validation,
  (forall r, In r results ->
     (exists v, getitem filled (gr_index r) = Some v)
     /\ (gr_prediction r = PNone \/ exists v, gr_prediction r = PFloat v)) ->
  exists filled' actual' validation',
    reduce_results results filled actual validation
    = Ok (filled', actual', validation')
    /\ length actual' = length actual + length results
    /\ length validation' = length validation + length results.
Proof.
  induction results as [| r results IH]; intros filled actual validation H;
    simpl.
  - exists filled, actual, validation; repeat split; lia.
  - destruct (H r (or_introl eq_refl)) as (Hr & Hp).
    destruct (assign_in_range filled (gr_index r) (gr_prediction r) Hr Hp)
      as (filled1 & Ha & Hkeep).
    rewrite Ha; simpl.
    destruct (IH filled1 (actual ++ [gr_actual_score r])
                 (validation ++ [gr_validation_score r]))
      as (f' & a' & v' & Hred & Hla & Hlv).
    + intros r' Hr'; destruct (H r' (or_intror Hr')) as (Hg & Hq).
      split; [apply Hkeep, Hg | exact Hq].
    + exists f', a', v'; split; [exact Hred |].
      rewrite length_app in Hla, Hlv; simpl in Hla, Hlv; lia.
Qed.

Lemma process_gap_array_indices g gap_size g' gap_indices :
  process_gap_array g gap_size = Ok (g', gap_indices) ->
  gap_indices = argwhere (gap_mask g') (temp_gap_array g').
Proof.
  unfold process_gap_array; intros H.
  apply bind_Ok in H as (x & _ & H).
  apply bind_Ok in H as (image & _ & H).
  apply bind_Ok in H as (u & _ & H).
  destruct (find _ (data_with_gaps g)) as [kv |]; [| discriminate].
  injection H as <- <-; reflexivity.
Qed.

(** The orchestrator, for a run in which every call of [pixel_model]
    returns. *)
Lemma fill_the_gaps_covers g gap_size g' gap_indices rand :
  process_gap_array g gap_size = Ok (g', gap_indices) ->
  (forall gi, In gi gap_indices -> returns (model g' (rand gi) gi) = true) ->
  exists results filled_array actual_scores validation_scores,
    imap_pixel_model scale cross_val_score fit predict randomized_search
                     grid_search g' rand gap_indices = Ok results
    /\ fill_the_gaps scale cross_val_score fit predict randomized_search
                     grid_search g' rand gap_indices
       = Ok (filled_array, actual_scores, validation_scores)
    /\ map gr_index results = gap_indices
    /\ NoDup (map gr_index results)
    /\ (forall c, In c (map gr_index results) <-> gap_marked g' c)
    /\ length results = length gap_indices
    /\ length actual_scores = length gap_indices
    /\ length validation_scores = length gap_indices.
Proof.
  intros Hproc Hret.
  pose proof (process_gap_array_indices _ _ _ _ Hproc) as Hgaps.
  destruct (mapM_total (fun gi => model g' (rand gi) gi) gap_indices)
    as (results & Hres).
  { intros gi Hgi; specialize (Hret gi Hgi).
    destruct (model g' (rand gi) gi) as [r | e |]; try discriminate.
    exists r; reflexivity. }
  assert (Hidx : map gr_index results = gap_indices).
  { apply (mapM_Ok_map (fun gi => model g' (rand gi) gi) gr_index);
      [| exact Hres].
    intros gi r Hr; apply (pixel_model_result _ _ _ _ Hr). }
  assert (Hlen : length results = length gap_indices)
    by (apply (mapM_Ok_length _ _ _ Hres)).
  assert (Hshape : Forall (fun r => gr_prediction r = PNone
                     \/ exists v, gr_prediction r = PFloat v) results).
  { apply (mapM_Ok_Forall (fun gi => model g' (rand gi) gi) _ _ _
             (fun gi r _ Hr => proj2 (pixel_model_result _ _ _ _ Hr)) Hres). }
  destruct (reduce_results_total results (temp_gap_array g') [] [])
    as (filled & actual & validation & Hred & Hla & Hlv).
  { intros r Hr; split.
    - assert (Hin : In (gr_index r) gap_indices)
        by (rewrite <- Hidx; apply in_map, Hr).
      rewrite Hgaps in Hin; apply argwhere_In in Hin as (v & Hv & _).
      exists v; exact Hv.
    - rewrite Forall_forall in Hshape; apply Hshape, Hr. }
  exists results, filled, actual, validation.
  split; [exact Hres |].
  split; [unfold fill_the_gaps, imap_pixel_model; rewrite Hres;
          exact Hred |].
  split; [exact Hidx |].
  split; [rewrite Hidx, Hgaps; apply argwhere_NoDup |].
  split; [intros c; rewrite Hidx, Hgaps; apply argwhere_In |].
  simpl in Hla, Hlv; repeat split; lia.
Qed.

End LearningFacts.

(** C1 (code bug).  Real gaps (marker NaN), predictor "RandomPoints", the
    5 x 5 run with 23 known pixels: [process_gap_array] identifies the two
    gap-marked pixels, and [fill_the_gaps] over them produces no Gap Result
    at all, because the first call of [pixel_model] raises KeyError (the
    defect of C2) and the exception ends the batch, whatever scikit-learn
    and [random] do.  With artificial gaps at the same two pixels the run
    returns, with one result for each of them. *)
Theorem fill_the_gaps_aborts_with_real_gaps :
  forall (estimator : Type) scale cross_val_score
         (fit : list (list value) -> list value -> result estimator)
         predict randomized_search grid_search rand,
    process_gap_array small_nan_run "0.1"
    = Ok (processed small_nan_run, small_gaps)
    /\ (forall c, In c small_gaps <-> gap_marked (processed small_nan_run) c)
    /\ fill_the_gaps scale cross_val_score fit predict randomized_search
                     grid_search (processed small_nan_run) rand small_gaps
       = Raise KeyError
    /\ process_gap_array small_sentinel_run "0.1"
       = Ok (processed small_sentinel_run, small_gaps)
    /\ imap_pixel_model scale cross_val_score fit predict randomized_search
                        grid_search (processed small_sentinel_run) rand
                        small_gaps
       = Ok [((0, 0), PFloat seven, not_available, not_available);
             ((2, 3), PFloat seven, not_available, not_available)]
    /\ fill_the_gaps scale cross_val_score fit predict randomized_search
                     grid_search (processed small_sentinel_run) rand
                     small_gaps
       = Ok (full 5 5 seven, [not_available; not_available],
             [not_available; not_available]).
Proof.
  intros estimator scale cross_val_score fit predict randomized_search
         grid_search rand.
  assert (Hproc : process_gap_array small_nan_run "0.1"
                  = Ok (processed small_nan_run, small_gaps))
    by (vm_compute; reflexivity).
  split; [exact Hproc |].
  split.
  { intros c.
    rewrite (process_gap_array_indices _ _ _ _ Hproc) at 1.
    apply argwhere_In. }
  split; [vm_compute; reflexivity |].
  split; [vm_compute; reflexivity |].
  split; vm_compute; reflexivity.
Qed.

(** C2 (code bug).  Real gaps (marker NaN), 23 known pixels, predictor
    "RandomPoints": the selector signals insufficient data, the
    interpolation succeeds, and [pixel_model] then indexes the dataset
    [actual_matrix] with the pair [(i, j)], which names no variable: the
    call raises KeyError whatever scikit-learn and [random] do.  With
    artificial gaps the same pixel gets its Gap Result. *)
Theorem pixel_model_signal_raises_with_real_gaps :
  forall (estimator : Type) scale cross_val_score
         (fit : list (list value) -> list value -> result estimator)
         predict randomized_search grid_search draws,
    get_random_points (processed small_nan_run) draws
    = Ok (Signal not_enough)
    /\ interpolation (processed small_nan_run) (0, 0) = Ok (PFloat seven)
    /\ pixel_model scale cross_val_score fit predict randomized_search
                   grid_search (processed small_nan_run) draws (0, 0)
       = Raise KeyError
    /\ pixel_model scale cross_val_score fit predict randomized_search
                   grid_search (processed small_sentinel_run) draws (0, 0)
       = Ok ((0, 0), PFloat seven, not_available, not_available).
Proof.
  intros; repeat split; vm_compute; reflexivity.
Qed.

(** C3 (code bug).  Hyperparameters 'Custom', a cross-validation that
    succeeds with the fold scores -1/2, -1/4 and -1: the validation score
    that [train_model] returns is that array, three negated errors, and not
    one non-negative number. *)
Theorem train_model_custom_returns_fold_scores :
  forall X_train y_train X_test,
    exists predicted,
      train_model scale_id cv_folds fit_unit predict_three search_unit
                  search_unit (processed flat_run) X_train y_train X_test
      = Ok (predicted, PArray fold_scores)
      /\ nonneg_number (PArray fold_scores) = false.
Proof.
  intros X_train y_train X_test; eexists; split; [| reflexivity].
  apply (train_model_custom unit scale_id cv_folds fit_unit predict_three
           search_unit search_unit (processed flat_run) X_train y_train
           X_test (X_train ++ X_test) fold_scores tt); reflexivity.
Qed.

(** C9 (code bug).  A training set of two rows whose predictor values are
    all 0: [X_train.any()] is false, so [pixel_model] interpolates and
    marks the validation score unavailable; scikit-learn plays no part in
    the result. *)
Theorem pixel_model_interpolates_on_zero_valued_training_set :
  forall (estimator : Type) scale cross_val_score
         (fit : list (list value) -> list value -> result estimator)
         predict randomized_search grid_search draws,
    (exists df,
       feature_table (processed flat_run)
         (argwhere (non_gap_mask (processed flat_run))
                   (temp_gap_array (processed flat_run)) ++ [(1, 1)])
       = Ok df
       /\ length (fst (fst (get_train_test_sets df))) = 2
       /\ any (fst (fst (get_train_test_sets df))) = false)
    /\ exists actual_score,
         pixel_model scale cross_val_score fit predict randomized_search
                     grid_search (processed flat_run) draws (1, 1)
         = Ok ((1, 1), PFloat seven, actual_score, not_available).
Proof.
  intros; split.
  - eexists; split; [vm_compute; reflexivity |].
    split; vm_compute; reflexivity.
  - eexists; vm_compute; reflexivity.
Qed.

(** * Further properties of the code *)

(** ** process_gap_array *)

Lemma filter_orb_disjoint_length {A} (p q : A -> bool) l :
  (forall x, p x = true -> q x = false) ->
  length (filter (fun x => p x || q x) l)
  = length (filter p l) + length (filter q l).
Proof.
  intros Hpq; induction l as [| x l IH]; simpl; [reflexivity |].
  destruct (p x) eqn:Hp; simpl.
  - rewrite (Hpq x Hp); simpl; rewrite IH; reflexivity.
  - destruct (q x); simpl; rewrite IH; lia.
Qed.

Lemma filter_impl_length {A} (p q : A -> bool) l :
  (forall x, p x = true -> q x = true) ->
  length (filter p l) <= length (filter q l).
Proof.
  intros Hpq; induction l as [| x l IH]; simpl; [lia |].
  destruct (p x) eqn:Hp; [rewrite (Hpq x Hp); simpl; lia |].
  destruct (q x); simpl; lia.
Qed.

Lemma count_where_compl p m :
  count_where p m + count_where (fun v => negb (p v)) m = size m.
Proof. apply filter_negb_length. Qed.

(** X1.  When [process_gap_array] returns, [temp_known_pixels] is the
    number of pixels of the array that are neither NaN nor the gap marker,
    there is one gap index for each pixel that carries the marker, and the
    two numbers together do not exceed the size of the array. *)
Theorem process_gap_array_counts :
  forall g gap_size g' gap_indices,
    process_gap_array g gap_size = Ok (g', gap_indices) ->
    temp_known_pixels g' = Z.of_nat (usable_known g')
    /\ length gap_indices = count_where (gap_mask g') (temp_gap_array g')
    /\ usable_known g' + length gap_indices <= size (temp_gap_array g').
Proof.
  intros g gap_size g' gap_indices H.
  assert (Hidx : gap_indices = argwhere (gap_mask g') (temp_gap_array g')).
  { unfold process_gap_array in H.
    apply bind_Ok in H as (x & _ & H).
    apply bind_Ok in H as (image & _ & H).
    apply bind_Ok in H as (u & _ & H).
    destruct (find _ (data_with_gaps g)) as [kv |]; [| discriminate].
    injection H as <- <-; reflexivity. }
  unfold process_gap_array in H.
  apply bind_Ok in H as (x & _ & H).
  apply bind_Ok in H as (image & _ & H).
  apply bind_Ok in H as (u & _ & H).
  destruct (find _ (data_with_gaps g)) as [kv |]; [| discriminate].
  injection H as Hg' _.
  set (a := snd kv) in *.
  assert (Ha : temp_gap_array g' = a) by (rewrite <- Hg'; reflexivity).
  assert (Hgv : gap_value g' = gap_value g) by (rewrite <- Hg'; reflexivity).
  assert (Hk : temp_known_pixels g' = Z.of_nat (usable_known g')).
  { unfold usable_known; rewrite Ha, Hgv.
    rewrite <- Hg' at 1; simpl.
    pose proof (count_where_compl
                  (fun v => isnan v || val_eqb v (gap_value g)) a) as Hc.
    destruct (gap_value g) as [| q] eqn:Egv; simpl.
    - assert (He : count_where (fun v => isnan v || val_eqb v NaN) a
                   = count_where isnan a).
      { unfold count_where; f_equal; apply filter_ext.
        intros v; destruct v; reflexivity. }
      rewrite He in Hc; lia.
    - assert (He : count_where (fun v => isnan v || val_eqb v (Num q)) a
                   = count_where isnan a
                     + count_where (fun v => val_eqb v (Num q)) a).
      { apply filter_orb_disjoint_length.
        intros v Hv; destruct v; [reflexivity | discriminate]. }
      rewrite He in Hc; lia. }
  split; [exact Hk |].
  assert (Hlen : length gap_indices
                 = count_where (gap_mask g') (temp_gap_array g'))
    by (rewrite Hidx; apply argwhere_length).
  split; [exact Hlen |].
  rewrite Hlen; unfold usable_known, gap_mask.
  pose proof (count_where_compl
                (fun v => isnan v || val_eqb v (gap_value g'))
                (temp_gap_array g')) as Hc.
  assert (Hle : count_where (if isnan (gap_value g') then isnan
                             else fun v => val_eqb v (gap_value g'))
                  (temp_gap_array g')
                <= count_where (fun v => isnan v || val_eqb v (gap_value g'))
                     (temp_gap_array g')).
  { apply filter_impl_length; intros v Hv.
    destruct (isnan (gap_value g')); rewrite Hv;
      [reflexivity | apply orb_true_r]. }
  lia.
Qed.

(** X1 at the 5 x 5 run with two artificial gaps. *)
Lemma process_gap_array_counts_witness :
  process_gap_array small_sentinel_run "0.1"
  = Ok (processed small_sentinel_run, small_gaps)
  /\ temp_known_pixels (processed small_sentinel_run) = 23%Z.
Proof.
  assert (H : process_gap_array small_sentinel_run "0.1"
              = Ok (processed small_sentinel_run, small_gaps))
    by (vm_compute; reflexivity).
  split; [exact H |].
  destruct (process_gap_array_counts small_sentinel_run "0.1"%string
              (processed small_sentinel_run) small_gaps H) as (Hk & _).
  rewrite Hk; reflexivity.
Defined.

(** ** get_random_points *)

Lemma accepted_passes a c :
  accepted a c <-> In c (argwhere passes a).
Proof.
  rewrite argwhere_In; unfold accepted, passes; split;
    intros (v & Hv & Hp); exists v; split; trivial.
  - rewrite Hp; reflexivity.
  - apply negb_true_iff; exact Hp.
Qed.

(** The marker -100 itself is close to -100. *)
Lemma val_eqb_isclose v :
  val_eqb v minus100 = true -> isclose v minus100 = true.
Proof.
  destruct v as [| x]; simpl; [discriminate |].
  intros H; apply Qeq_bool_iff in H.
  apply Qle_bool_iff.
  assert (E : Qeq (Qabs (x - (-100 # 1))) 0).
  { setoid_replace x with (-100 # 1)%Q by exact H. reflexivity. }
  apply (Qle_trans _ 0); [apply Qle_lteq; right; exact E |].
  unfold Qle; vm_compute; discriminate.
Qed.

(** X2.  Whatever branch answers and whatever the gap mode, the
    coordinates that [get_random_points] returns are pairwise distinct and
    lie inside the Target Matrix. *)
Theorem get_random_points_distinct_in_range :
  forall g draws cs,
    get_random_points g draws = Ok (Coords cs) ->
    NoDup cs
    /\ forall c, In c cs -> exists v, getitem (temp_gap_array g) c = Some v.
Proof.
  intros g draws cs H; split; [apply (get_random_points_NoDup g draws cs H) |].
  intros c Hc; destruct (100 <=? temp_known_pixels g)%Z eqn:E.
  - apply Z.leb_le in E.
    destruct (get_random_points_sampled g draws cs E H) as (_ & _ & Hacc).
    destruct (Hacc c Hc) as (v & Hv & _); exists v; exact Hv.
  - unfold get_random_points in H; rewrite E in H.
    destruct (50 <=? temp_known_pixels g)%Z; [| discriminate].
    injection H as <-; apply argwhere_In in Hc as (v & Hv & _).
    exists v; exact Hv.
Qed.

(** X2 at the run with 109 known pixels. *)
Lemma get_random_points_distinct_in_range_witness :
  exists cs,
    get_random_points (processed sentinel_run) (all_coords 11 10)
    = Ok (Coords cs)
    /\ NoDup cs.
Proof.
  eexists; split; [vm_compute; reflexivity |].
  eapply (get_random_points_distinct_in_range (processed sentinel_run)
            (all_coords 11 10)).
  vm_compute; reflexivity.
Defined.

(** X3.  With artificial gaps (marker -100), no coordinate that
    [get_random_points] returns holds the marker. *)
Theorem get_random_points_sentinel_no_gap :
  forall g draws cs,
    gap_value g = minus100 ->
    get_random_points g draws = Ok (Coords cs) ->
    forall c, In c cs ->
      exists v, getitem (temp_gap_array g) c = Some v
                /\ val_eqb v minus100 = false.
Proof.
  intros g draws cs Hg H c Hc.
  destruct (100 <=? temp_known_pixels g)%Z eqn:E.
  - apply Z.leb_le in E.
    destruct (get_random_points_sampled g draws cs E H) as (_ & _ & Hacc).
    destruct (Hacc c Hc) as (v & Hv & Hp); exists v; split; [exact Hv |].
    destruct (val_eqb v minus100) eqn:Ev; [| reflexivity].
    apply val_eqb_isclose in Ev; rewrite Ev in Hp; discriminate.
  - unfold get_random_points in H; rewrite E in H.
    destruct (50 <=? temp_known_pixels g)%Z; [| discriminate].
    injection H as <-; apply argwhere_In in Hc as (v & Hv & Hp).
    exists v; split; [exact Hv |].
    unfold non_gap_mask in Hp; rewrite Hg in Hp; simpl in Hp.
    apply negb_true_iff; exact Hp.
Qed.

(** X3 at the run with 109 known pixels and the gap at (0,0). *)
Lemma get_random_points_sentinel_no_gap_witness :
  exists cs,
    get_random_points (processed sentinel_run) (all_coords 11 10)
    = Ok (Coords cs)
    /\ exists v, getitem (temp_gap_array (processed sentinel_run)) (0, 1)
                 = Some v
                 /\ val_eqb v minus100 = false.
Proof.
  eexists; split; [vm_compute; reflexivity |].
  eapply (get_random_points_sentinel_no_gap (processed sentinel_run)
            (all_coords 11 10)).
  - reflexivity.
  - vm_compute; reflexivity.
  - vm_compute; left; reflexivity.
Defined.

Lemma not_In_existsb_coord_eqb c cs :
  ~ In c cs -> existsb (coord_eqb c) cs = false.
Proof.
  intros Hn; destruct (existsb (coord_eqb c) cs) eqn:E; [| reflexivity].
  apply existsb_exists in E as (x & Hx & He).
  apply coord_eqb_eq in He; subst; contradiction.
Qed.

(** Fresh accepted draws, enough of them, make the loop return. *)
Lemma sampling_loop_returns a draws : forall coords n,
  NoDup draws ->
  (forall d, In d draws -> accepted a d) ->
  (forall d, In d draws -> ~ In d coords) ->
  n <= 101 -> 101 <= n + length draws ->
  exists cs, sampling_loop a 100 draws coords n = Ok cs.
Proof.
  induction draws as [| d draws IH]; intros coords n Hnd Hacc Hfresh Hn Hlen;
    simpl in *.
  - replace (n <=? 100) with false by (symmetry; apply Nat.leb_gt; lia).
    exists coords; reflexivity.
  - destruct (n <=? 100) eqn:E; [| exists coords; reflexivity].
    apply Nat.leb_le in E.
    destruct (Hacc d (or_introl eq_refl)) as (v & Hv & Hp).
    rewrite Hv, Hp.
    rewrite (not_In_existsb_coord_eqb d coords (Hfresh d (or_introl eq_refl))).
    apply NoDup_cons_iff in Hnd as (Hd & Hnd).
    apply IH; [exact Hnd | | | lia | lia].
    + intros x Hx; apply Hacc; right; exact Hx.
    + intros x Hx Hin; apply in_app_iff in Hin as [Hin | [<- | []]].
      * apply (Hfresh x (or_intror Hx) Hin).
      * contradiction.
Qed.

(** X4.  With at least 100 known pixels, some sequence of draws makes
    [get_random_points] return if and only if at least 101 pixels of the
    Target Matrix pass the two tests of the loop. *)
Theorem get_random_points_can_return_iff :
  forall g,
    (100 <= temp_known_pixels g)%Z ->
    (exists draws, returns (get_random_points g draws) = true)
    <-> 101 <= count_where passes (temp_gap_array g).
Proof.
  intros g Hk; rewrite <- argwhere_length; split.
  - intros (draws & Hret).
    destruct (get_random_points g draws) as [[cs | s] | e |] eqn:H;
      try discriminate.
    + destruct (get_random_points_sampled g draws cs Hk H)
        as (Hlen & Hnd & Hacc).
      rewrite <- Hlen; apply NoDup_incl_length; [exact Hnd |].
      intros c Hc; apply accepted_passes, Hacc, Hc.
    + unfold get_random_points in H.
      apply Z.leb_le in Hk; rewrite Hk in H.
      destruct (sampling_loop _ _ _ _ _); discriminate.
  - intros Hlen; exists (argwhere passes (temp_gap_array g)).
    destruct (sampling_loop_returns (temp_gap_array g)
                (argwhere passes (temp_gap_array g)) [] 0) as (cs & Hcs).
    + apply argwhere_NoDup.
    + intros d Hd; apply accepted_passes, Hd.
    + intros d _ [].
    + lia.
    + simpl; exact Hlen.
    + unfold get_random_points.
      apply Z.leb_le in Hk; rewrite Hk, Hcs; reflexivity.
Qed.

(** X4 at the run with 109 known pixels, all of which pass. *)
Lemma get_random_points_can_return_iff_witness :
  (100 <= temp_known_pixels (processed sentinel_run))%Z
  /\ exists draws,
       returns (get_random_points (processed sentinel_run) draws) = true.
Proof.
  assert (H : (100 <= temp_known_pixels (processed sentinel_run))%Z)
    by (vm_compute; discriminate).
  split; [exact H |].
  apply (proj2 (get_random_points_can_return_iff (processed sentinel_run) H)).
  vm_compute; repeat constructor.
Defined.

(** ** get_extra_matrix_points *)

Lemma nth_error_combine {A B} (l : list A) (l' : list B) n :
  nth_error (combine l l') n
  = match nth_error l n, nth_error l' n with
    | Some a, Some b => Some (a, b)
    | _, _ => None
    end.
Proof.
  revert l' n; induction l as [| a l IH]; intros [| b l'] [| n]; simpl;
    try reflexivity.
  - destruct (nth_error l n); reflexivity.
  - apply IH.
Qed.

Lemma getitem_np_where cond a x b c :
  getitem (np_where cond a x b) c
  = match getitem a c, getitem b c with
    | Some v, Some w => Some (if cond v then x else w)
    | _, _ => None
    end.
Proof.
  unfold getitem, np_where.
  rewrite nth_error_map, nth_error_combine.
  destruct (nth_error a (fst c)) as [ra |]; simpl; [| reflexivity].
  destruct (nth_error b (fst c)) as [rb |]; simpl.
  - rewrite nth_error_map, nth_error_combine.
    destruct (nth_error ra (snd c)); simpl; [| reflexivity].
    destruct (nth_error rb (snd c)); reflexivity.
  - destruct (nth_error ra (snd c)); reflexivity.
Qed.

(** The other side of X5: a pixel that carries an artificial gap marker is
    a candidate of the class whose code is the marker as the class array
    stores it (class 156 of a [uint8] array). *)
Lemma same_class_coords_stored_marker g c v w q :
  gap_value g = Num q ->
  getitem (temp_gap_array g) c = Some v ->
  val_eqb v (gap_value g) = true ->
  getitem (extra_matrix g) c = Some w ->
  In c (same_class_coords g (astype (extra_dtype g) (gap_value g))).
Proof.
  intros Hq Hv Hgap Hw; unfold same_class_coords.
  rewrite Hq in *; cbn [isnan].
  apply argwhere_In; rewrite getitem_np_where, Hv, Hw, Hgap.
  eexists; split; [reflexivity |].
  destruct (astype (extra_dtype g) (Num q)) as [| r] eqn:E.
  - unfold astype in E; destruct (extra_dtype g); [| discriminate].
    destruct (Qeq_bool _ _); discriminate.
  - simpl; apply Qeq_bool_iff; reflexivity.
Qed.

(** X5.  [np.where] stores the gap marker in the class array in the dtype
    of that array (NaN as it is, -100 as 156 in a [uint8] array).  When the
    class code of the gap pixel differs from the marker so stored, the
    candidates of [get_extra_matrix_points] are exactly the pixels that do
    not carry the gap marker in the Target Matrix and have that class code
    in the auxiliary matrix. *)
Theorem same_class_coords_known_same_class :
  forall g extra_code c,
    val_eqb (astype (extra_dtype g) (gap_value g)) extra_code = false ->
    (In c (same_class_coords g extra_code)
     <-> exists v w,
           getitem (temp_gap_array g) c = Some v
           /\ gap_mask g v = false
           /\ getitem (extra_matrix g) c = Some w
           /\ val_eqb w extra_code = true).
Proof.
  intros g extra_code c Hcode; unfold same_class_coords, gap_mask.
  assert (H : forall cond x,
    val_eqb x extra_code = false ->
    (exists u, getitem (np_where cond (temp_gap_array g) x
                                 (extra_matrix g)) c = Some u
               /\ val_eqb u extra_code = true)
    <-> exists v w, getitem (temp_gap_array g) c = Some v
                    /\ cond v = false
                    /\ getitem (extra_matrix g) c = Some w
                    /\ val_eqb w extra_code = true).
  { intros cond x Hx; rewrite getitem_np_where; split.
    - intros (u & Hu & He).
      destruct (getitem (temp_gap_array g) c) as [v |]; [| discriminate].
      destruct (getitem (extra_matrix g) c) as [w |]; [| discriminate].
      injection Hu as <-; exists v, w.
      destruct (cond v); [congruence | repeat split; trivial].
    - intros (v & w & -> & Hc & -> & He); rewrite Hc.
      exists w; split; trivial. }
  rewrite argwhere_In.
  destruct (gap_value g) as [| q] eqn:Hgv; cbn [isnan].
  - apply H; reflexivity.
  - apply H; exact Hcode.
Qed.

(** X5 at the 7 x 7 run, where the marker is stored as 156: pixel (0,0) is
    a candidate of class 7. *)
Lemma same_class_coords_known_same_class_witness :
  val_eqb (astype (extra_dtype (processed lcc_run))
                  (gap_value (processed lcc_run))) seven = false
  /\ exists v, getitem (temp_gap_array (processed lcc_run)) (0, 0) = Some v
               /\ gap_mask (processed lcc_run) v = false.
Proof.
  assert (H : val_eqb (astype (extra_dtype (processed lcc_run))
                              (gap_value (processed lcc_run))) seven = false)
    by (vm_compute; reflexivity).
  split; [exact H |].
  destruct (proj1 (same_class_coords_known_same_class (processed lcc_run)
                     seven (0, 0) H)) as (v & w & Hv & Hm & _).
  - vm_compute; left; reflexivity.
  - exists v; split; [exact Hv | exact Hm].
Defined.

Lemma select_indices_length n : forall ds, length (select_indices n ds) = n.
Proof.
  induction n as [| n IH]; intros ds; simpl; [| rewrite IH]; reflexivity.
Qed.

(** X6.  Whatever pool it selects from, a coordinate list returned by
    [get_extra_matrix_points] is made of at most 40 coordinates of the pool
    followed by the gap pixel's own coordinate; the pool is the candidate
    list of the class, or the answer of [get_random_points] when fewer than
    40 candidates exist. *)
Theorem get_extra_matrix_points_shape :
  forall g draws gap_index cs,
    get_extra_matrix_points g draws gap_index = Ok (Coords cs) ->
    exists extra_code pool selected,
      getitem (extra_matrix g) gap_index = Some extra_code
      /\ cs = selected ++ [gap_index]
      /\ length selected = Nat.min 40 (length pool)
      /\ incl selected pool
      /\ (if length (same_class_coords g extra_code) <? 40
          then get_random_points g draws = Ok (Coords pool)
          else pool = same_class_coords g extra_code).
Proof.
  intros g draws gap_index cs H; unfold get_extra_matrix_points in H.
  apply bind_Ok in H as (extra_code & Hcode & H).
  apply bind_Ok in H as ([pool | s] & Hpool & H); [| discriminate].
  injection H as <-.
  destruct (getitem (extra_matrix g) gap_index) as [code |] eqn:Hc;
    [| discriminate].
  injection Hcode as ->.
  exists extra_code, pool,
    (select_loop (Nat.min 40 (length pool)) pool (cdist gap_index pool) []).
  split; [reflexivity |].
  split; [reflexivity |].
  rewrite select_loop_indices; simpl.
  split; [rewrite length_map; apply select_indices_length |].
  split.
  - destruct (select_indices_spec (Nat.min 40 (length pool))
                (cdist gap_index pool)) as (_ & Hin & _).
    { rewrite finite_count_cdist; apply Nat.le_min_r. }
    intros c Hcin; apply in_map_iff in Hcin as (k & <- & Hk).
    apply nth_In; destruct (Hin k Hk) as (Hlt & _).
    unfold cdist in Hlt; rewrite length_map in Hlt; exact Hlt.
  - destruct (length (same_class_coords g extra_code) <? 40);
      [exact Hpool | injection Hpool as <-; reflexivity].
Qed.

(** X6 at the 7 x 7 run. *)
Lemma get_extra_matrix_points_shape_witness :
  exists cs selected,
    get_extra_matrix_points (processed lcc_run) [] (3, 3) = Ok (Coords cs)
    /\ cs = selected ++ [(3, 3)].
Proof.
  eexists.
  assert (H : get_extra_matrix_points (processed lcc_run) [] (3, 3)
              = Ok (Coords _)) by (vm_compute; reflexivity).
  destruct (get_extra_matrix_points_shape (processed lcc_run) [] (3, 3) _ H)
    as (code & pool & selected & _ & Hcs & _).
  exists selected; split; [exact H | exact Hcs].
Defined.

(** ** create_dataframe *)

Lemma mapM_nth_error {A B} (f : A -> result B) l bs k a :
  mapM f l = Ok bs -> nth_error l k = Some a ->
  exists b, nth_error bs k = Some b /\ f a = Ok b.
Proof.
  revert bs k; induction l as [| x l IH]; intros bs k H Hk;
    [destruct k; discriminate |].
  simpl in H; apply bind_Ok in H as (b & Hb & H).
  apply bind_Ok in H as (bs' & Hbs & H); injection H as <-.
  destruct k as [| k]; simpl in *.
  - injection Hk as <-; exists b; split; trivial.
  - apply (IH bs' k Hbs Hk).
Qed.

Lemma mapM_Ok_iff {A B} (f : A -> result B) l :
  (exists bs, mapM f l = Ok bs) <-> forall a, In a l -> exists b, f a = Ok b.
Proof.
  split; [| apply mapM_total].
  induction l as [| x l IH]; intros (bs & H) a Ha; [destruct Ha |].
  simpl in H; apply bind_Ok in H as (b & Hb & H).
  apply bind_Ok in H as (bs' & Hbs & _).
  destruct Ha as [<- | Ha]; [exists b; exact Hb |].
  apply IH; [exists bs'; exact Hbs | exact Ha].
Qed.

Lemma mapM_outcome {A B} (f : A -> result B) e l :
  (forall a, In a l -> (exists b, f a = Ok b) \/ f a = Raise e) ->
  (exists bs, mapM f l = Ok bs) \/ mapM f l = Raise e.
Proof.
  induction l as [| x l IH]; intros H; simpl.
  - left; exists []; reflexivity.
  - destruct (H x (or_introl eq_refl)) as [(b & ->) | ->];
      [| right; reflexivity].
    destruct IH as [(bs & ->) | ->].
    + intros a Ha; apply H; right; exact Ha.
    + left; eexists; reflexivity.
    + right; reflexivity.
Qed.

(** X7.  The table that [create_dataframe] returns has one column per
    coordinate, labelled by its position; column [k] holds the value of
    every historical image at coordinate [k], in the order of the images,
    and below them, as its last entry, the value of the Target Matrix. *)
Theorem create_dataframe_contents :
  forall g coords df,
    create_dataframe g coords = Ok df ->
    length df = length coords
    /\ forall k c, nth_error coords k = Some c ->
         exists col,
           nth_error df k = Some (LInt k, col)
           /\ length col = S (length (training_data g))
           /\ nth_error col (length (training_data g))
              = getitem (temp_gap_array g) c
           /\ forall t m, nth_error (training_data g) t = Some m ->
                          nth_error col t = getitem m c.
Proof.
  intros g coords df H.
  pose proof (create_dataframe_shape g coords df H) as (_ & Hrect).
  unfold create_dataframe in H.
  apply bind_Ok in H as (cols & Hcols & H); injection H as <-.
  pose proof (mapM_Ok_length _ _ _ Hcols) as Hlen.
  split.
  { rewrite length_combine, length_map, length_seq, Hlen.
    apply Nat.min_id. }
  intros k c Hk.
  destruct (mapM_nth_error _ _ _ _ _ Hcols Hk) as (col & Hcol & Hc).
  exists col; split.
  { rewrite nth_error_combine, nth_error_map, nth_error_seq, Hcol.
    assert (Hlt : k < length coords)
      by (apply nth_error_Some; rewrite Hk; discriminate).
    apply Nat.ltb_lt in Hlt; rewrite Hlt; reflexivity. }
  split; [apply (column_of_length g c col Hc) |].
  unfold column_of in Hc.
  apply bind_Ok in Hc as (history & Hh & Hc).
  apply bind_Ok in Hc as (target & Ht & Hc); injection Hc as <-.
  assert (Hhist : mapM (fun t => of_option IndexError (getitem t c))
                       (training_data g) = Ok history)
    by (destruct (training_data g); [discriminate | exact Hh]).
  pose proof (mapM_Ok_length _ _ _ Hhist) as Hhl.
  split.
  - rewrite nth_error_app2, <- Hhl, Nat.sub_diag by lia; simpl.
    destruct (getitem (temp_gap_array g) c); [| discriminate].
    injection Ht as <-; reflexivity.
  - intros t m Hm.
    destruct (mapM_nth_error _ _ _ _ _ Hhist Hm) as (v & Hv & Hg).
    rewrite nth_error_app1
      by (apply nth_error_Some; rewrite Hv; discriminate).
    rewrite Hv; destruct (getitem m c); [| discriminate].
    injection Hg as <-; reflexivity.
Qed.

(** X7 at the run with a cloudy predictor pixel. *)
Lemma create_dataframe_contents_witness :
  exists df,
    create_dataframe (processed cloudy_run) cloudy_coords = Ok df
    /\ length df = 3.
Proof.
  eexists.
  assert (H : create_dataframe (processed cloudy_run) cloudy_coords = Ok _)
    by (vm_compute; reflexivity).
  split; [exact H |].
  apply (create_dataframe_contents (processed cloudy_run) cloudy_coords _ H).
Defined.

(** X8.  [create_dataframe] returns exactly when every coordinate lies
    inside the Target Matrix and inside every historical image, of which
    there is at least one unless no coordinate is given; in every other case
    it raises IndexError. *)
Theorem create_dataframe_outcome :
  forall g coords,
    ((exists df, create_dataframe g coords = Ok df)
     <-> forall c, In c coords ->
           training_data g <> []
           /\ (exists v, getitem (temp_gap_array g) c = Some v)
           /\ forall m, In m (training_data g) ->
                        exists v, getitem m c = Some v)
    /\ ((exists df, create_dataframe g coords = Ok df)
        \/ create_dataframe g coords = Raise IndexError).
Proof.
  intros g coords.
  assert (Hcol : forall c,
    (exists col, column_of g c = Ok col)
    <-> training_data g <> []
        /\ (exists v, getitem (temp_gap_array g) c = Some v)
        /\ forall m, In m (training_data g) -> exists v, getitem m c = Some v).
  { intros c; unfold column_of; split.
    - intros (col & H).
      apply bind_Ok in H as (history & Hh & H).
      apply bind_Ok in H as (target & Ht & _).
      destruct (training_data g) as [| t ts] eqn:Etd; [discriminate |].
      split; [discriminate |].
      split.
      + destruct (getitem (temp_gap_array g) c) as [v |]; [| discriminate].
        exists v; reflexivity.
      + intros m Hm.
        destruct (proj1 (mapM_Ok_iff _ (t :: ts))
                    (ex_intro _ history Hh) m Hm) as (v & Hv).
        destruct (getitem m c) as [w |]; [| discriminate].
        exists w; reflexivity.
    - intros (Hne & (v & Hv) & Hall).
      destruct (training_data g) as [| t ts] eqn:Etd; [congruence |].
      destruct (mapM_total (fun t => of_option IndexError (getitem t c))
                  (t :: ts)) as (history & Hh).
      { intros m Hm; destruct (Hall m Hm) as (w & Hw).
        exists w; rewrite Hw; reflexivity. }
      rewrite Hh, Hv; simpl; eexists; reflexivity. }
  assert (Hres : forall c,
    (exists col, column_of g c = Ok col) \/ column_of g c = Raise IndexError).
  { intros c; unfold column_of.
    destruct (training_data g) as [| t ts]; [right; reflexivity |].
    destruct (mapM_outcome (fun t => of_option IndexError (getitem t c))
                IndexError (t :: ts)) as [(history & ->) | ->].
    - intros m _; destruct (getitem m c) as [v |];
        [left; exists v | right]; reflexivity.
    - simpl; destruct (getitem (temp_gap_array g) c);
        [left; eexists | right]; reflexivity.
    - right; reflexivity. }
  split.
  - unfold create_dataframe; split.
    + intros (df & H) c Hc.
      apply bind_Ok in H as (cols & Hcols & _).
      apply Hcol, (proj1 (mapM_Ok_iff _ coords) (ex_intro _ cols Hcols) c Hc).
    + intros H.
      destruct (mapM_total (column_of g) coords) as (cols & ->).
      * intros c Hc; apply Hcol, H, Hc.
      * eexists; reflexivity.
  - unfold create_dataframe.
    destruct (mapM_outcome (column_of g) IndexError coords)
      as [(cols & ->) | ->].
    + intros c _; apply Hres.
    + left; eexists; reflexivity.
    + right; reflexivity.
Qed.

(** ** preprocess_dataframe and get_train_test_sets *)

Lemma positions_from_none p k l :
  (forall v, In v l -> p v = false) -> positions_from p k l = [].
Proof.
  revert k; induction l as [| v l IH]; intros k H; simpl; [reflexivity |].
  rewrite (H v (or_introl eq_refl)).
  apply IH; intros w Hw; apply H; right; exact Hw.
Qed.

(** X9.  The table that [pixel_model] hands on is a fixed point of
    [preprocess_dataframe]: preprocessing it once more removes nothing and
    raises nothing. *)
Theorem feature_table_preprocessed :
  forall g coords df,
    feature_table g coords = Ok df ->
    preprocess_dataframe df = Ok df.
Proof.
  intros g coords df H; unfold feature_table in H.
  apply bind_Ok in H as (created & Hcreate & H).
  destruct (create_dataframe_shape g coords created Hcreate)
    as (Hlab & Hrect).
  destruct (replace_shape minus100 NaN created _ Hlab Hrect) as (Hlab1 & _).
  destruct (take_rows_shape
              (filter (fun r => negb (forallb isnan
                         (row_at (replace minus100 NaN created) r)))
                      (seq 0 (nrows (replace minus100 NaN created))))
              (replace minus100 NaN created) Hlab1) as (Hlab2 & Hrect2).
  fold (dropna_all (replace minus100 NaN created)) in Hlab2, Hrect2.
  destruct (preprocess_dataframe_spec _ _ Hlab2 Hrect2)
    as (drops & Hp & Hb).
  rewrite H in Hp; injection Hp as Hdf; rewrite <- Hdf in Hb.
  clear Hlab Hrect Hlab1 Hlab2 Hrect2.
  unfold preprocess_dataframe.
  rewrite positions_from_none; [reflexivity |].
  intros v Hv; apply in_concat in Hv as (l & Hl & Hv).
  apply in_map_iff in Hl as (c & <- & Hc).
  apply (Hb c v Hc Hv).
Qed.

(** X9 at the run with a cloudy predictor pixel. *)
Lemma feature_table_preprocessed_witness :
  exists df,
    feature_table (processed cloudy_run) cloudy_coords = Ok df
    /\ preprocess_dataframe df = Ok df.
Proof.
  eexists.
  assert (H : feature_table (processed cloudy_run) cloudy_coords = Ok _)
    by (vm_compute; reflexivity).
  split; [exact H |].
  apply (feature_table_preprocessed (processed cloudy_run) cloudy_coords _ H).
Defined.

Lemma In_but_last {A} (x : A) l : In x (but_last l) -> In x l.
Proof.
  unfold but_last; induction l as [| a l IH]; simpl; [trivial |].
  destruct l as [| b l]; [intros [] |].
  intros [<- | H]; [left; reflexivity | right; apply IH, H].
Qed.

Lemma In_last_slice {A} (x : A) l : In x (last_slice l) -> In x l.
Proof.
  unfold last_slice; destruct (rev l) as [| a r] eqn:E; [intros [] |].
  intros [<- | []]; apply in_rev; rewrite E; left; reflexivity.
Qed.

Lemma length_but_last {A} (l : list A) : length (but_last l) = length l - 1.
Proof.
  unfold but_last; induction l as [| a l IH]; simpl; [reflexivity |].
  destruct l as [| b l]; [reflexivity |].
  simpl in *; rewrite IH; lia.
Qed.

Lemma length_last_slice {A} (l : list A) : length (last_slice l) <= 1.
Proof. unfold last_slice; destruct (rev l); simpl; lia. Qed.

Lemma row_at_length df r : length (row_at df r) = length df.
Proof. apply length_map. Qed.

(** The rows that [dropna()] leaves have no NaN. *)
Lemma dropna_rows df row :
  In row (rows_of (dropna df)) -> forall v, In v row -> isnan v = false.
Proof.
  unfold rows_of, dropna; intros Hrow v Hv.
  set (rs := filter (fun r => forallb (fun v => negb (isnan v)) (row_at df r))
                    (seq 0 (nrows df))) in *.
  apply in_map_iff in Hrow as (r & <- & Hr).
  apply in_seq in Hr.
  assert (Hlt : r < length rs)
    by (pose proof (nrows_take_rows rs df); lia).
  rewrite row_at_take_rows in Hv by exact Hlt.
  assert (Hin : In (nth r rs 0) rs) by (apply nth_In; exact Hlt).
  apply filter_In in Hin as (_ & Hall).
  rewrite forallb_forall in Hall.
  apply negb_true_iff, Hall, Hv.
Qed.

(** X10.  The split is strict about completeness: [X_train] and [y_train]
    have one row per historical row that is complete, no value that enters
    them is NaN, every row of [X_train] and of [X_test] lacks exactly the
    last column, and [X_test] has at most one row. *)
Theorem get_train_test_sets_complete :
  forall df,
    let '(X_train, y_train, X_test) := get_train_test_sets df in
    length X_train = length y_train
    /\ (forall row v, In row X_train -> In v row -> isnan v = false)
    /\ (forall row v, In row y_train -> In v row -> isnan v = false)
    /\ (forall row, In row X_train -> length row = length df - 1)
    /\ (forall row, In row X_test -> length row = length df - 1)
    /\ length X_test <= 1.
Proof.
  intros df; unfold get_train_test_sets.
  set (train := dropna (map (fun c => (fst c, but_last (snd c))) df)).
  set (test := map (fun c => (fst c, last_slice (snd c))) df).
  assert (Hw : forall d : DataFrame, forall row,
            In row (rows_of d) -> length row = length d).
  { intros d row Hrow; apply in_map_iff in Hrow as (r & <- & _).
    apply row_at_length. }
  assert (Htrain : length train = length df)
    by (unfold train, dropna, take_rows; rewrite !length_map; reflexivity).
  assert (Htest : length test = length df)
    by (unfold test; apply length_map).
  split; [rewrite !length_map; reflexivity |].
  split.
  { intros row v Hrow Hv; apply in_map_iff in Hrow as (row0 & <- & Hrow0).
    apply (dropna_rows _ row0 Hrow0), In_but_last, Hv. }
  split.
  { intros row v Hrow Hv; apply in_map_iff in Hrow as (row0 & <- & Hrow0).
    apply (dropna_rows _ row0 Hrow0), In_last_slice, Hv. }
  split.
  { intros row Hrow; apply in_map_iff in Hrow as (row0 & <- & Hrow0).
    rewrite length_but_last, (Hw train row0 Hrow0), Htrain; reflexivity. }
  split.
  { intros row Hrow; apply in_map_iff in Hrow as (row0 & <- & Hrow0).
    rewrite length_but_last, (Hw test row0 Hrow0), Htest; reflexivity. }
  rewrite length_map; unfold rows_of; rewrite length_map, length_seq.
  unfold test; destruct df as [| c df]; simpl; [lia |].
  apply length_last_slice.
Qed.

(** ** interpolation *)

(** X11.  In either gap mode, a value that [interpolation] returns is the
    value of a pixel of the Target Matrix that is neither NaN nor the gap
    marker, and no such pixel is nearer to the gap coordinate; when the
    Target Matrix has no such pixel at all, the value is NaN. *)
Theorem interpolation_nearest_known :
  forall g gap_index v,
    interpolation g gap_index = Ok (PFloat v) ->
    (v = NaN
     /\ forall c' v',
          getitem (temp_gap_array g) c' = Some v' ->
          isnan v' = false ->
          val_eqb v' (gap_value g) = true)
    \/ exists c,
         getitem (temp_gap_array g) c = Some v
         /\ isnan v = false
         /\ val_eqb v (gap_value g) = false
         /\ forall c' v',
              getitem (temp_gap_array g) c' = Some v' ->
              isnan v' = false ->
              val_eqb v' (gap_value g) = false ->
              (sqdist gap_index c <= sqdist gap_index c')%Z.
Proof.
  intros g gap_index v; unfold interpolation.
  destruct (_ <=? 10)%Z; [discriminate |].
  set (copy_matrix :=
         map (map (fun v => if val_eqb v (gap_value g) then NaN else v))
             (temp_gap_array g)).
  assert (Hknown : forall c' v',
            getitem (temp_gap_array g) c' = Some v' ->
            isnan v' = false ->
            val_eqb v' (gap_value g) = false ->
            In (c', v') (known_scatter copy_matrix)).
  { intros c' v' Hc' Hn' Hg'; apply known_scatter_In.
    split; [| exact Hn'].
    unfold copy_matrix; rewrite getitem_map, Hc'; simpl.
    rewrite Hg'; reflexivity. }
  destruct (known_scatter copy_matrix) as [| p pts] eqn:Hpts;
    simpl; intros H; injection H as <-.
  - left; split; [reflexivity |].
    intros c' v' Hc' Hn'.
    destruct (val_eqb v' (gap_value g)) eqn:Hg'; [reflexivity |].
    destruct (Hknown c' v' Hc' Hn' Hg').
  - right.
    destruct (nearest_from_spec gap_index pts p) as ([c w] & Hq & Hv & Hmin).
    rewrite <- Hpts in Hq.
    apply known_scatter_In in Hq as (Hc & Hwn).
    unfold copy_matrix in Hc; rewrite getitem_map in Hc.
    destruct (getitem (temp_gap_array g) c) as [v0 |] eqn:Hv0;
      [| discriminate].
    simpl in Hc.
    destruct (val_eqb v0 (gap_value g)) eqn:Hv0g;
      injection Hc as <-; [discriminate |].
    exists c; rewrite Hv; simpl.
    split; [exact Hv0 |].
    split; [exact Hwn |].
    split; [exact Hv0g |].
    intros c' v' Hc' Hn' Hg'.
    apply (Hmin (c', v')), (Hknown c' v' Hc' Hn' Hg').
Qed.

(** X11 at the run with 15 known pixels. *)
Lemma interpolation_nearest_known_witness :
  exists c,
    interpolation (processed fifteen_known_run) (0, 0) = Ok (PFloat seven)
    /\ getitem (temp_gap_array (processed fifteen_known_run)) c = Some seven.
Proof.
  assert (H : interpolation (processed fifteen_known_run) (0, 0)
              = Ok (PFloat seven)) by (vm_compute; reflexivity).
  destruct (interpolation_nearest_known (processed fifteen_known_run)
              (0, 0) seven H) as [(Hnan & _) | (c & Hc & _)].
  - discriminate Hnan.
  - exists c; split; [exact H | exact Hc].
Defined.

(** ** fill_the_gaps *)

Lemma coord_eqb_refl c : coord_eqb c c = true.
Proof. apply coord_eqb_eq; reflexivity. Qed.

Lemma coord_eqb_neq c c' : c <> c' -> coord_eqb c c' = false.
Proof.
  intros Hne; destruct (coord_eqb c c') eqn:E; [| reflexivity].
  apply coord_eqb_eq in E; contradiction.
Qed.

Lemma assign_spec m c p m' :
  assign m c p = Ok m' ->
  exists v, setitem m c v = Some m'
            /\ (p = PNone -> v = NaN)
            /\ (forall w, p = PFloat w -> v = w).
Proof.
  destruct p as [| w | [| w [| w2 vs]] | s]; simpl; try discriminate.
  - destruct (setitem m c NaN) as [m1 |] eqn:E; simpl; [| discriminate].
    intros H; injection H as <-; exists NaN.
    split; [exact E | split; [reflexivity | discriminate]].
  - destruct (setitem m c w) as [m1 |] eqn:E; simpl; [| discriminate].
    intros H; injection H as <-; exists w.
    split; [exact E | split; [discriminate | congruence]].
  - destruct (setitem m c w) as [m1 |] eqn:E; simpl; [| discriminate].
    intros H; injection H as <-; exists w.
    split; [exact E | split; discriminate].
Qed.

(** What the loop over the results leaves behind. *)
Lemma reduce_results_spec results :
  forall filled actual validation filled' actual' validation',
    reduce_results results filled actual validation
    = Ok (filled', actual', validation') ->
    actual' = actual ++ map gr_actual_score results
    /\ validation' = validation ++ map gr_validation_score results
    /\ (forall c, ~ In c (map gr_index results) ->
                  getitem filled' c = getitem filled c)
    /\ (NoDup (map gr_index results) ->
        forall r, In r results ->
          (gr_prediction r = PNone ->
           getitem filled' (gr_index r) = Some NaN)
          /\ (forall w, gr_prediction r = PFloat w ->
                        getitem filled' (gr_index r) = Some w)).
Proof.
  induction results as [| r results IH];
    intros filled actual validation filled' actual' validation' H;
    simpl in H.
  - injection H as <- <- <-; simpl; rewrite !app_nil_r.
    split; [reflexivity |].
    split; [reflexivity |].
    split; [reflexivity | intros _ r []].
  - apply bind_Ok in H as (filled1 & Ha & H).
    apply assign_spec in Ha as (v & Hset & Hnone & Hfloat).
    pose proof (getitem_setitem _ _ _ _ Hset) as Hget.
    destruct (IH _ _ _ _ _ _ H) as (Hact & Hval & Hkeep & Hput).
    split; [rewrite Hact, <- app_assoc; reflexivity |].
    split; [rewrite Hval, <- app_assoc; reflexivity |].
    split.
    + intros c Hc; simpl in Hc.
      rewrite Hkeep by (intros Hin; apply Hc; right; exact Hin).
      rewrite Hget, coord_eqb_neq; [reflexivity |].
      intros ->; apply Hc; left; reflexivity.
    + intros Hnd r' [<- | Hr']; simpl in Hnd;
        apply NoDup_cons_iff in Hnd as (Hfresh & Hnd).
      * rewrite Hkeep by exact Hfresh.
        rewrite Hget, coord_eqb_refl.
        split; [intros Hp; rewrite (Hnone Hp); reflexivity |].
        intros w Hp; rewrite (Hfloat w Hp); reflexivity.
      * apply (Hput Hnd r' Hr').
Qed.

(** X12.  When [fill_the_gaps] returns, the filled array differs from the
    Target Matrix at the gap indices only, where it holds the prediction
    of the pixel (NaN for a prediction [None]); the two score lists hold
    the scores of the Gap Results in the order of the gap indices. *)
Theorem fill_the_gaps_filled_array :
  forall (estimator : Type) scale cross_val_score
         (fit : list (list value) -> list value -> result estimator)
         predict randomized_search grid_search
         g rand gap_indices filled_array actual_scores validation_scores,
    NoDup gap_indices ->
    fill_the_gaps scale cross_val_score fit predict randomized_search
                  grid_search g rand gap_indices
    = Ok (filled_array, actual_scores, validation_scores) ->
    exists results,
      imap_pixel_model scale cross_val_score fit predict randomized_search
                       grid_search g rand gap_indices = Ok results
      /\ map gr_index results = gap_indices
      /\ actual_scores = map gr_actual_score results
      /\ validation_scores = map gr_validation_score results
      /\ (forall c, ~ In c gap_indices ->
            getitem filled_array c = getitem (temp_gap_array g) c)
      /\ (forall r, In r results ->
            (gr_prediction r = PNone ->
             getitem filled_array (gr_index r) = Some NaN)
            /\ (forall w, gr_prediction r = PFloat w ->
                          getitem filled_array (gr_index r) = Some w)).
Proof.
  intros estimator scale cross_val_score fit predict randomized_search
         grid_search g rand gap_indices filled_array actual_scores
         validation_scores Hnd H.
  unfold fill_the_gaps in H.
  apply bind_Ok in H as (results & Hres & Hred).
  assert (Hidx : map gr_index results = gap_indices).
  { unfold imap_pixel_model in Hres.
    apply (mapM_Ok_map _ gr_index _ _) in Hres; [exact Hres |].
    intros gi r Hr.
    apply (pixel_model_result estimator scale cross_val_score fit predict
             randomized_search grid_search g (rand gi) gi r Hr). }
  destruct (reduce_results_spec _ _ _ _ _ _ _ Hred)
    as (Hact & Hval & Hkeep & Hput).
  exists results.
  split; [exact Hres |].
  split; [exact Hidx |].
  split; [exact Hact |].
  split; [exact Hval |].
  rewrite Hidx in Hkeep, Hput.
  split; [exact Hkeep | exact (Hput Hnd)].
Qed.

(** X12 at the 5 x 5 run with two artificial gaps. *)
Lemma fill_the_gaps_filled_array_witness :
  NoDup small_gaps
  /\ fill_the_gaps scale_id cv_folds fit_unit predict_three search_unit
                   search_unit (processed small_sentinel_run) (fun _ => [])
                   small_gaps
     = Ok (full 5 5 seven, [not_available; not_available],
           [not_available; not_available])
  /\ getitem (full 5 5 seven) (4, 4)
     = getitem (temp_gap_array (processed small_sentinel_run)) (4, 4).
Proof.
  assert (H1 : NoDup small_gaps).
  { constructor; [intros [H | []]; discriminate |].
    constructor; [intros [] | constructor]. }
  assert (H2 : fill_the_gaps scale_id cv_folds fit_unit predict_three
                 search_unit search_unit (processed small_sentinel_run)
                 (fun _ => []) small_gaps
               = Ok (full 5 5 seven, [not_available; not_available],
                     [not_available; not_available]))
    by (vm_compute; reflexivity).
  split; [exact H1 | split; [exact H2 |]].
  destruct (fill_the_gaps_filled_array unit scale_id cv_folds fit_unit
              predict_three search_unit search_unit
              (processed small_sentinel_run) (fun _ => []) small_gaps
              _ _ _ H1 H2) as (results & _ & _ & _ & _ & Hkeep & _).
  apply Hkeep; intros [H | [H | []]]; discriminate.
Defined.

Lemma mapM_raises {A B} (f : A -> result B) done a rest e :
  (forall x, In x done -> returns (f x) = true) ->
  f a = Raise e ->
  mapM f (done ++ a :: rest) = Raise e.
Proof.
  intros Hdone Ha; induction done as [| x done IH]; simpl.
  - rewrite Ha; reflexivity.
  - pose proof (Hdone x (or_introl eq_refl)) as Hx.
    destruct (f x) as [b | e' |]; try discriminate; simpl.
    rewrite IH; [reflexivity |].
    intros y Hy; apply Hdone; right; exact Hy.
Qed.

(** X13.  One pixel's exception ends the batch: when the call of
    [pixel_model] for a gap index raises and the calls for the indices
    before it returned, [fill_the_gaps] raises the same exception, whatever
    indices follow. *)
Theorem fill_the_gaps_raises_with_pixel_model :
  forall (estimator : Type) scale cross_val_score
         (fit : list (list value) -> list value -> result estimator)
         predict randomized_search grid_search
         g rand done gap_index rest e,
    (forall gi, In gi done ->
       returns (pixel_model scale cross_val_score fit predict
                            randomized_search grid_search g (rand gi) gi)
       = true) ->
    pixel_model scale cross_val_score fit predict randomized_search
                grid_search g (rand gap_index) gap_index = Raise e ->
    fill_the_gaps scale cross_val_score fit predict randomized_search
                  grid_search g rand (done ++ gap_index :: rest)
    = Raise e.
Proof.
  intros estimator scale cross_val_score fit predict randomized_search
         grid_search g rand done gap_index rest e Hdone Hraise.
  unfold fill_the_gaps, imap_pixel_model.
  rewrite (mapM_raises
             (fun gi => pixel_model scale cross_val_score fit predict
                          randomized_search grid_search g (rand gi) gi)
             done gap_index rest e Hdone Hraise).
  reflexivity.
Qed.

(** X13 at the 5 x 5 run with two real gaps. *)
Lemma fill_the_gaps_raises_with_pixel_model_witness :
  fill_the_gaps scale_id cv_folds fit_unit predict_three search_unit
                search_unit (processed small_nan_run) (fun _ => [])
                ([] ++ (0, 0) :: [(2, 3)])
  = Raise KeyError.
Proof.
  apply (fill_the_gaps_raises_with_pixel_model unit scale_id cv_folds
           fit_unit predict_three search_unit search_unit
           (processed small_nan_run) (fun _ => []) [] (0, 0) [(2, 3)]
           KeyError).
  - intros gi [].
  - vm_compute; reflexivity.
Defined.

(** ** train_model *)

(** The two shapes of what [train_model] returns. *)
Lemma train_model_shape (estimator : Type) scale cross_val_score
  (fit : list (list value) -> list value -> result estimator)
  predict randomized_search grid_search g X_train y_train X_test p s :
  train_model scale cross_val_score fit predict randomized_search
              grid_search g X_train y_train X_test = Ok (p, s) ->
  (p = PNone /\ s = PNone)
  \/ exists predicted,
       p = PArray predicted
       /\ (((hyperparameters g =? "Custom")%string = true
            /\ exists scores, s = PArray scores)
           \/ ((hyperparameters g =? "Custom")%string = false
               /\ exists best, s = PFloat (vabs best))).
Proof.
  unfold train_model; intros H.
  destruct (learning_function g =? "SVR")%string; [| discriminate].
  apply bind_Ok in H as (sample & _ & H).
  cbv beta iota zeta in H.
  destruct (hyperparameters g =? "Custom")%string eqn:Ec.
  - destruct (cross_val_score (but_last sample) (concat y_train))
      as [scores | e |]; [| | discriminate].
    + apply bind_Ok in H as (fitted & _ & H).
      apply bind_Ok in H as (predicted & _ & H).
      injection H as <- <-; right; exists predicted.
      split; [reflexivity | left].
      split; [reflexivity | exists scores; reflexivity].
    + injection H as <- <-; left; split; reflexivity.
  - destruct (hyperparameters g =? "RandomGridSearch")%string.
    + cbv beta iota zeta in H.
      destruct (randomized_search (but_last sample) (concat y_train))
        as [[regression best] | e |]; [| | discriminate].
      * apply bind_Ok in H as (predicted & _ & H).
        injection H as <- <-; right; exists predicted.
        split; [reflexivity | right].
        split; [reflexivity | exists best; reflexivity].
      * injection H as <- <-; left; split; reflexivity.
    + destruct (hyperparameters g =? "FullGridSearch")%string;
        cbv beta iota zeta in H.
      * destruct (grid_search (but_last sample) (concat y_train))
          as [[regression best] | e |]; [| | discriminate].
        -- apply bind_Ok in H as (predicted & _ & H).
           injection H as <- <-; right; exists predicted.
           split; [reflexivity | right].
           split; [reflexivity | exists best; reflexivity].
        -- injection H as <- <-; left; split; reflexivity.
      * injection H as <- <-; left; split; reflexivity.
Qed.

(** X14.  A hyperparameter mode that is none of 'Custom',
    'RandomGridSearch' and 'FullGridSearch' is not reported: once the
    sample is scaled, [train_model] returns [(None, None)], so the caller
    interpolates. *)
Theorem train_model_unknown_mode :
  forall (estimator : Type) scale cross_val_score
         (fit : list (list value) -> list value -> result estimator)
         predict randomized_search grid_search
         g X_train y_train X_test sample,
    learning_function g = "SVR"%string ->
    hyperparameters g <> "Custom"%string ->
    hyperparameters g <> "RandomGridSearch"%string ->
    hyperparameters g <> "FullGridSearch"%string ->
    scale (X_train ++ X_test) = Ok sample ->
    train_model scale cross_val_score fit predict randomized_search
                grid_search g X_train y_train X_test
    = Ok (PNone, PNone).
Proof.
  intros estimator scale cross_val_score fit predict randomized_search
         grid_search g X_train y_train X_test sample Hlf H1 H2 H3 Hs.
  apply String.eqb_neq in H1, H2, H3.
  unfold train_model; rewrite Hlf, Hs, H1, H2, H3; reflexivity.
Qed.

(** X14 at the run whose mode is 'BayesSearch'. *)
Lemma train_model_unknown_mode_witness :
  train_model scale_id cv_folds fit_unit predict_three search_unit
              search_unit (processed unknown_mode_run) [[seven]] [[seven]]
              [[seven]]
  = Ok (PNone, PNone).
Proof.
  apply (train_model_unknown_mode unit scale_id cv_folds fit_unit
           predict_three search_unit search_unit
           (processed unknown_mode_run) [[seven]] [[seven]] [[seven]]
           ([[seven]] ++ [[seven]])).
  - reflexivity.
  - intros H; vm_compute in H; discriminate H.
  - intros H; vm_compute in H; discriminate H.
  - intros H; vm_compute in H; discriminate H.
  - reflexivity.
Defined.

(** X15.  In the two search modes a validation score that comes with a
    prediction is the absolute value of the best score of the search, so
    it is a non-negative number whenever that score is a number. *)
Theorem train_model_search_score_nonneg :
  forall (estimator : Type) scale cross_val_score
         (fit : list (list value) -> list value -> result estimator)
         predict randomized_search grid_search
         g X_train y_train X_test p s,
    hyperparameters g <> "Custom"%string ->
    train_model scale cross_val_score fit predict randomized_search
                grid_search g X_train y_train X_test = Ok (p, s) ->
    (p = PNone /\ s = PNone)
    \/ exists predicted best,
         p = PArray predicted
         /\ s = PFloat (vabs best)
         /\ (isnan best = false -> nonneg_number s = true).
Proof.
  intros estimator scale cross_val_score fit predict randomized_search
         grid_search g X_train y_train X_test p s Hmode H.
  apply String.eqb_neq in Hmode.
  destruct (train_model_shape estimator scale cross_val_score fit predict
              randomized_search grid_search g X_train y_train X_test p s H)
    as [Hnone | (predicted & Hp & [(Hc & _) | (_ & best & Hs)])].
  - left; exact Hnone.
  - congruence.
  - right; exists predicted, best.
    split; [exact Hp | split; [exact Hs |]].
    intros Hbest; rewrite Hs.
    destruct best as [| q]; [discriminate |]; simpl.
    apply Qle_bool_iff, Qabs_nonneg.
Qed.

(** X15 at the run with a randomized search whose best score is -1/2. *)
Lemma train_model_search_score_nonneg_witness :
  exists p s,
    train_model scale_id cv_folds fit_unit predict_three search_unit
                search_unit (processed search_run) [[seven]] [[seven]]
                [[seven]] = Ok (p, s)
    /\ ((p = PNone /\ s = PNone)
        \/ exists predicted best,
             p = PArray predicted
             /\ s = PFloat (vabs best)
             /\ (isnan best = false -> nonneg_number s = true)).
Proof.
  exists (PArray [Num 3%Q]), (PFloat (vabs (Num (-1 # 2)%Q))).
  assert (H : train_model scale_id cv_folds fit_unit predict_three
                search_unit search_unit (processed search_run) [[seven]]
                [[seven]] [[seven]]
              = Ok (PArray [Num 3%Q], PFloat (vabs (Num (-1 # 2)%Q))))
    by (vm_compute; reflexivity).
  split; [exact H |].
  apply (train_model_search_score_nonneg unit scale_id cv_folds fit_unit
           predict_three search_unit search_unit (processed search_run)
           [[seven]] [[seven]] [[seven]] _ _).
  - intros E; vm_compute in E; discriminate E.
  - exact H.
Defined.

(** ** pixel_model *)

(** X16.  With artificial gaps, a Gap Result either comes from the
    insufficient-data branch, and then both of its scores are
    'not available', or its prediction is a float and its actual score is
    the absolute difference between the value of the first data variable
    of [actual_matrix] at the gap pixel and that prediction. *)
Theorem pixel_model_actual_score_sentinel :
  forall (estimator : Type) scale cross_val_score
         (fit : list (list value) -> list value -> result estimator)
         predict randomized_search grid_search g draws gap_index r,
    gap_value g = minus100 ->
    pixel_model scale cross_val_score fit predict randomized_search
                grid_search g draws gap_index = Ok r ->
    (gr_actual_score r = not_available
     /\ gr_validation_score r = not_available)
    \/ exists p variable data actual,
         gr_prediction r = PFloat p
         /\ data_variable (actual_matrix g) = Ok variable
         /\ dataset_getitem (actual_matrix g) variable = Ok data
         /\ getitem data gap_index = Some actual
         /\ gr_actual_score r = PFloat (vabs (vsub actual p)).
Proof.
  intros estimator scale cross_val_score fit predict randomized_search
         grid_search g draws gap_index r Hg H.
  unfold pixel_model in H.
  apply bind_Ok in H as ([cs | s] & _ & H).
  - apply bind_Ok in H as (df & _ & H).
    destruct (get_train_test_sets df) as [[X_train y_train] X_test].
    apply bind_Ok in H as (pv & _ & H).
    apply bind_Ok in H as (pv' & Hpv' & H).
    apply bind_Ok in H as (a & Ha & H); injection H as <-.
    assert (Hshape : fst pv' = PNone \/ exists v, fst pv' = PFloat v).
    { destruct (fst pv) eqn:Hp.
      1: apply bind_Ok in Hpv' as (q & Hi & Hpv'); injection Hpv' as <-;
         simpl; apply (interpolation_shape _ _ _ Hi).
      all: apply bind_Ok in Hpv' as (q & Hi & Hpv'); injection Hpv' as <-;
         simpl; right; apply (item_shape _ _ Hi). }
    rewrite Hg in Ha.
    change (val_eqb minus100 minus100) with true in Ha.
    cbv beta iota in Ha.
    apply bind_Ok in Ha as (variable & Hvar & Ha).
    apply bind_Ok in Ha as (data & Hdata & Ha).
    apply bind_Ok in Ha as (actual & Hact & Ha).
    destruct (getitem data gap_index) as [w |] eqn:Hw; [| discriminate].
    injection Hact as ->.
    destruct Hshape as [Hn | (p & Hp)]; rewrite ?Hn, ?Hp in Ha;
      simpl in Ha; [discriminate |].
    injection Ha as <-.
    right; exists p, variable, data, actual.
    split; [exact Hp |].
    split; [exact Hvar |].
    split; [exact Hdata |].
    split; [exact Hw | reflexivity].
  - apply bind_Ok in H as (p & _ & H).
    apply bind_Ok in H as (a & Ha & H); injection H as <-.
    rewrite Hg in Ha.
    change (val_neqb minus100 minus100) with false in Ha.
    injection Ha as <-.
    left; split; reflexivity.
Qed.

(** X16 at the 3 x 4 run with all-zero predictors. *)
Lemma pixel_model_actual_score_sentinel_witness :
  exists r,
    pixel_model scale_id cv_folds fit_unit predict_three search_unit
                search_unit (processed flat_run) [] (1, 1) = Ok r
    /\ gr_prediction r = PFloat seven.
Proof.
  eexists.
  assert (H : pixel_model scale_id cv_folds fit_unit predict_three
                search_unit search_unit (processed flat_run) [] (1, 1)
              = Ok _) by (vm_compute; reflexivity).
  split; [exact H |].
  destruct (pixel_model_actual_score_sentinel unit scale_id cv_folds fit_unit
              predict_three search_unit search_unit (processed flat_run) []
              (1, 1) _ eq_refl H) as [_ | _]; reflexivity.
Defined.

(** X17.  The validation score of a Gap Result is never [None]: it is
    'not available', or the array of fold scores (mode 'Custom'), or the
    absolute value of the best score of a search. *)
Theorem pixel_model_validation_score :
  forall (estimator : Type) scale cross_val_score
         (fit : list (list value) -> list value -> result estimator)
         predict randomized_search grid_search g draws gap_index r,
    pixel_model scale cross_val_score fit predict randomized_search
                grid_search g draws gap_index = Ok r ->
    gr_validation_score r = not_available
    \/ (exists scores, gr_validation_score r = PArray scores)
    \/ (exists best, gr_validation_score r = PFloat (vabs best)).
Proof.
  intros estimator scale cross_val_score fit predict randomized_search
         grid_search g draws gap_index r H.
  unfold pixel_model in H.
  apply bind_Ok in H as ([cs | s] & _ & H).
  - apply bind_Ok in H as (df & _ & H).
    destruct (get_train_test_sets df) as [[X_train y_train] X_test].
    apply bind_Ok in H as (pv & Hpv & H).
    apply bind_Ok in H as (pv' & Hpv' & H).
    apply bind_Ok in H as (a & _ & H); injection H as <-.
    unfold gr_validation_score; simpl.
    assert (Hsnd : snd pv' = not_available
                   \/ (fst pv <> PNone /\ snd pv' = snd pv)).
    { destruct (fst pv) eqn:Hp.
      1: apply bind_Ok in Hpv' as (q & _ & Hpv'); injection Hpv' as <-;
         left; reflexivity.
      all: apply bind_Ok in Hpv' as (q & _ & Hpv'); injection Hpv' as <-;
         right; split; [discriminate | reflexivity]. }
    destruct Hsnd as [Hna | (Hne & ->)]; [left; exact Hna |].
    destruct (negb (any X_train)).
    + apply bind_Ok in Hpv as (q & _ & Hpv); injection Hpv as <-.
      left; reflexivity.
    + destruct pv as [p s]; simpl in *.
      destruct (train_model_shape estimator scale cross_val_score fit
                  predict randomized_search grid_search g X_train y_train
                  X_test p s Hpv)
        as [(Hp & _) | (_ & _ & [(_ & Hs) | (_ & Hs)])].
      * contradiction.
      * right; left; exact Hs.
      * right; right; exact Hs.
  - apply bind_Ok in H as (p & _ & H).
    apply bind_Ok in H as (a & _ & H); injection H as <-.
    left; reflexivity.
Qed.

(** X17 at the 3 x 4 run with all-zero predictors. *)
Lemma pixel_model_validation_score_witness :
  exists r,
    pixel_model scale_id cv_folds fit_unit predict_three search_unit
                search_unit (processed flat_run) [] (1, 1) = Ok r
    /\ (gr_validation_score r = not_available
        \/ (exists scores, gr_validation_score r = PArray scores)
        \/ (exists best, gr_validation_score r = PFloat (vabs best))).
Proof.
  eexists.
  assert (H : pixel_model scale_id cv_folds fit_unit predict_three
                search_unit search_unit (processed flat_run) [] (1, 1)
              = Ok _) by (vm_compute; reflexivity).
  split; [exact H |].
  apply (pixel_model_validation_score unit scale_id cv_folds fit_unit
           predict_three search_unit search_unit (processed flat_run) []
           (1, 1) _ H).
Defined.

Lemma dataset_getitem_tuple ds i j :
  (forall kv, In kv ds -> exists s, fst kv = KName s) ->
  dataset_getitem ds (KTuple i j) = Raise KeyError.
Proof.
  intros Hnames; unfold dataset_getitem.
  destruct (find (fun kv => key_eqb (fst kv) (KTuple i j)) ds) as [kv |] eqn:E;
    [| reflexivity].
  apply find_some in E as (Hin & He).
  destruct (Hnames kv Hin) as (s & Hs); rewrite Hs in He; discriminate.
Qed.

(** X18.  With real gaps (marker NaN), predictor 'RandomPoints' and fewer
    than 50 known pixels, [pixel_model] never returns when the variables of
    [actual_matrix] have strings as names: the insufficient-data branch
    ends in an exception for every gap pixel. *)
Theorem pixel_model_real_gaps_signal_never_returns :
  forall (estimator : Type) scale cross_val_score
         (fit : list (list value) -> list value -> result estimator)
         predict randomized_search grid_search g draws gap_index,
    gap_value g = NaN ->
    predictor g = "RandomPoints"%string ->
    (temp_known_pixels g < 50)%Z ->
    (forall kv, In kv (actual_matrix g) -> exists s, fst kv = KName s) ->
    returns (pixel_model scale cross_val_score fit predict randomized_search
                         grid_search g draws gap_index) = false.
Proof.
  intros estimator scale cross_val_score fit predict randomized_search
         grid_search g draws gap_index Hg Hpred Hk Hnames.
  unfold pixel_model; rewrite Hpred; cbn [String.eqb Ascii.eqb Bool.eqb].
  unfold get_random_points.
  replace (100 <=? temp_known_pixels g)%Z with false
    by (symmetry; apply Z.leb_gt; lia).
  replace (50 <=? temp_known_pixels g)%Z with false
    by (symmetry; apply Z.leb_gt; lia).
  cbn [bind].
  destruct (interpolation g gap_index) as [p | e |]; cbn [bind];
    [| reflexivity | reflexivity].
  rewrite Hg; cbn [val_neqb val_eqb negb].
  rewrite (dataset_getitem_tuple _ _ _ Hnames); reflexivity.
Qed.

(** X18 at the 5 x 5 run with two real gaps. *)
Lemma pixel_model_real_gaps_signal_never_returns_witness :
  returns (pixel_model scale_id cv_folds fit_unit predict_three search_unit
                       search_unit (processed small_nan_run) [] (2, 3))
  = false.
Proof.
  apply (pixel_model_real_gaps_signal_never_returns unit scale_id cv_folds
           fit_unit predict_three search_unit search_unit
           (processed small_nan_run) [] (2, 3)).
  - reflexivity.
  - reflexivity.
  - vm_compute; reflexivity.
  - intros kv Hin; vm_compute in Hin.
    destruct Hin as [<- | [<- | [<- | [<- | []]]]]; eexists; reflexivity.
Defined.
